(** * tutorAgent: the chunker and the adaptive quiz engine

    A shallow embedding of [tutor_agent/embeddings.py] ([split_into_chunks])
    and [tutor_agent/quiz.py] ([QuizSession]) together with the properties
    of the specification that concern them.

    Python strings are modelled as lists of characters.  A character is a
    code point in the range 0..255 (the Latin-1 range of [str]); the
    predicates [str.isspace], the regular expression class [\s] and the
    argument-less [str.split] / [str.strip] all use the same notion of
    white space on that range.  Integers are unbounded ([Z]). *)

From Stdlib Require Import List Ascii String ZArith Lia Bool Permutation.
From Stdlib Require Import Floats.SpecFloat.
From Stdlib Require DecimalString.
Import ListNotations.

Local Open Scope Z_scope.

(** ** Strings *)

Module Str.

Definition str := list ascii.

(** [len(s)] *)
Definition len (s : str) : Z := Z.of_nat (List.length s).

(** Truthiness of a string: [if s:] *)
Definition truthy (s : str) : bool :=
  match s with [] => false | _ :: _ => true end.

Definition code (c : ascii) : Z := Z.of_N (N_of_ascii c).

(** [c.isspace()], which is also what [\s] matches: TAB..CR, FS..US,
    SPACE, NEL and NBSP. *)
Definition isspace (c : ascii) : bool :=
  let n := code c in
  ((9 <=? n) && (n <=? 13)) || ((28 <=? n) && (n <=? 32))
  || (n =? 133) || (n =? 160).

Definition is_newline (c : ascii) : bool := code c =? 10.

(** The class [[.!?]] *)
Definition is_sentence_end (c : ascii) : bool :=
  let n := code c in (n =? 46) || (n =? 33) || (n =? 63).

(** The class [[A-Za-z0-9]] *)
Definition is_alnum (c : ascii) : bool :=
  let n := code c in
  ((65 <=? n) && (n <=? 90)) || ((97 <=? n) && (n <=? 122))
  || ((48 <=? n) && (n <=? 57)).

(** [c.lower()] on the Latin-1 range: A-Z and the accented capitals
    0xC0..0xDE (without the multiplication sign 0xD7) move up by 32. *)
Definition lower_char (c : ascii) : ascii :=
  let n := code c in
  if ((65 <=? n) && (n <=? 90))
     || ((192 <=? n) && (n <=? 222) && negb (n =? 215))
  then ascii_of_N (Z.to_N (n + 32)) else c.

Definition lower (s : str) : str := map lower_char s.

Fixpoint lstrip (s : str) : str :=
  match s with
  | c :: r => if isspace c then lstrip r else s
  | [] => []
  end.

Definition rstrip (s : str) : str := rev (lstrip (rev s)).

(** [s.strip()] *)
Definition strip (s : str) : str := rstrip (lstrip s).

Definition SP : ascii := " "%char.

(** [f"{a} {b}"] *)
Definition join_sp (a b : str) : str := a ++ SP :: b.

(** [s.split()] with no argument: the maximal runs of non-space
    characters; [cur] is the run being read. *)
Fixpoint split_ws_from (cur : str) (s : str) : list str :=
  match s with
  | [] => if truthy cur then [cur] else []
  | c :: r =>
      if isspace c
      then (if truthy cur then [cur] else []) ++ split_ws_from [] r
      else split_ws_from (cur ++ [c]) r
  end.

Definition split (s : str) : list str := split_ws_from [] s.

(** [re.split(r"\n{2,}", s)]: the separators are the maximal runs of at
    least two line feeds; a single line feed stays inside its piece.
    [in_sep] says that the previous character belonged to a separator,
    [cur] is the piece being read. *)
Fixpoint split_paragraphs_from (in_sep : bool) (cur : str) (s : str)
  : list str :=
  match s with
  | [] => [cur]
  | c :: r =>
      if is_newline c then
        if in_sep then split_paragraphs_from true [] r
        else match r with
             | c' :: _ =>
                 if is_newline c'
                 then cur :: split_paragraphs_from true [] r
                 else split_paragraphs_from false (cur ++ [c]) r
             | [] => split_paragraphs_from false (cur ++ [c]) r
             end
      else split_paragraphs_from false (cur ++ [c]) r
  end.

Definition re_split_paragraphs (s : str) : list str :=
  split_paragraphs_from false [] s.

(** [re.split(r"(?<=[.!?])\s+", s)]: a separator is a maximal run of
    white space standing right after one of [.], [!], [?].  [in_sep]
    says that the previous character belonged to a separator, [after_end]
    that the previous character is in [[.!?]]. *)
Fixpoint split_sentences_from (in_sep after_end : bool) (cur : str)
  (s : str) : list str :=
  match s with
  | [] => [cur]
  | c :: r =>
      if isspace c then
        if in_sep then split_sentences_from true false [] r
        else if after_end then cur :: split_sentences_from true false [] r
        else split_sentences_from false false (cur ++ [c]) r
      else split_sentences_from false (is_sentence_end c) (cur ++ [c]) r
  end.

Definition re_split_sentences (s : str) : list str :=
  split_sentences_from false false [] s.

(** [re.sub(r"[^A-Za-z0-9]", "", w)] *)
Definition keep_alnum (w : str) : str := filter is_alnum w.

(** [max(xs, key=len)] on a non-empty list: the first element of
    greatest length.  [best] is the maximum so far; it is replaced only
    by a strictly longer element. *)
Fixpoint max_by_len_from (best : str) (xs : list str) : str :=
  match xs with
  | [] => best
  | x :: r =>
      if len best <? len x then max_by_len_from x r
      else max_by_len_from best r
  end.

(** [max(xs, key=len)]; [None] stands for the [ValueError] on an empty
    sequence. *)
Definition max_by_len (xs : list str) : option str :=
  match xs with
  | [] => None
  | x :: r => Some (max_by_len_from x r)
  end.

(** [needle in hay] *)
Fixpoint starts_with (needle hay : str) : bool :=
  match needle, hay with
  | [], _ => true
  | _ :: _, [] => false
  | a :: n', b :: h' => Ascii.eqb a b && starts_with n' h'
  end.

Fixpoint contains (needle hay : str) : bool :=
  starts_with needle hay
  || match hay with
     | [] => false
     | _ :: h' => contains needle h'
     end.

(** A string literal *)
Definition lit (s : string) : str := list_ascii_of_string s.

(** The characters that are not white space, in order. *)
Definition non_space (s : str) : str :=
  filter (fun c => negb (isspace c)) s.

End Str.

Import Str.

(** ** The chunker, [embeddings.py] *)

Module Chunker.

(** Line 49: [[p.strip() for p in re.split(r"\n{2,}", text) if p.strip()]] *)
Definition paragraphs (text : str) : list str :=
  map strip (filter (fun p => truthy (strip p)) (re_split_paragraphs text)).

(** Lines 58-66: the loop over the sentences of a long paragraph; the
    result is the pair of [chunks] and [buf] at the end of the loop. *)
Fixpoint pack_sentences (max_length : Z) (sentences : list str)
  (chunks : list str) (buf : str) : list str * str :=
  match sentences with
  | [] => (chunks, buf)
  | sent :: rest =>
      if negb (truthy sent) then pack_sentences max_length rest chunks buf
      else if len buf + len sent + 1 <=? max_length
      then pack_sentences max_length rest chunks (strip (join_sp buf sent))
      else pack_sentences max_length rest
             (if truthy buf then chunks ++ [buf] else chunks) sent
  end.

(** Lines 52-68: the body of the loop over the paragraphs. *)
Definition add_paragraph (max_length : Z) (chunks : list str) (para : str)
  : list str :=
  if len para <=? max_length then chunks ++ [para]
  else
    let sentences := re_split_sentences para in
    let '(chunks', buf) := pack_sentences max_length sentences chunks [] in
    if truthy buf then chunks' ++ [buf] else chunks'.

(** Lines 50-68: the first pass. *)
Definition first_pass (max_length : Z) (paras : list str) : list str :=
  fold_left (add_paragraph max_length) paras [].

(** Lines 72-79: the loop of the second pass; the result is the pair of
    [merged] and [buf] at the end of the loop. *)
Fixpoint merge_loop (min_length max_length : Z) (chunks : list str)
  (merged : list str) (buf : str) : list str * str :=
  match chunks with
  | [] => (merged, buf)
  | chunk :: rest =>
      if (len buf + len chunk + 1 <=? max_length)
         && ((len buf <? min_length) || (len chunk <? min_length))
      then merge_loop min_length max_length rest merged
             (strip (join_sp buf chunk))
      else
        merge_loop min_length max_length rest
          ((if truthy buf then merged ++ [buf] else merged) ++ [chunk]) []
  end.

(** Lines 70-82: the second pass. *)
Definition merge_pass (min_length max_length : Z) (chunks : list str)
  : list str :=
  let '(merged, buf) := merge_loop min_length max_length chunks [] [] in
  if truthy buf then merged ++ [buf] else merged.

Definition split_into_chunks (text : str) (min_length max_length : Z)
  : list str :=
  merge_pass min_length max_length
    (first_pass max_length (paragraphs text)).

End Chunker.

Import Chunker.

(** ** [difflib.SequenceMatcher]

    [quiz.py] grades with [difflib.SequenceMatcher(None, a, b).ratio()]
    of Python's standard library.  The definitions below follow that
    class for the call made by the program: [isjunk] is [None], so the
    set [bjunk] is empty, and [autojunk] has its default [True]. *)

Module Difflib.

(** [s[i]]; every use below is guarded so that [0 <= i < len(s)]. *)
Definition at_ (s : str) (i : Z) : ascii := nth (Z.to_nat i) s Ascii.zero.

Definition count_of (x : ascii) (b : str) : Z :=
  len (filter (Ascii.eqb x) b).

(** [__chain_b]: an element of [b] is popular, and is dropped from
    [b2j], when [len(b) >= 200] and it occurs more than
    [len(b) // 100 + 1] times. *)
Definition popular (b : str) (x : ascii) : bool :=
  (200 <=? len b) && (len b / 100 + 1 <? count_of x b).

(** The indices [j >= from] with [b[j] == x], ascending. *)
Fixpoint indices_from (x : ascii) (b : str) (from : Z) : list Z :=
  match b with
  | [] => []
  | c :: r =>
      (if Ascii.eqb c x then [from] else []) ++ indices_from x r (from + 1)
  end.

(** [b2j.get(x, nothing)] *)
Definition b2j_get (b : str) (x : ascii) : list Z :=
  if popular b x then [] else indices_from x b 0.

(** [j2len.get(j, 0)] on a dictionary kept as an association list *)
Fixpoint j2len_get (j2len : list (Z * Z)) (j : Z) : Z :=
  match j2len with
  | [] => 0
  | (j', k) :: r => if j' =? j then k else j2len_get r j
  end.

Record Match := { m_a : Z; m_b : Z; m_size : Z }.

(** The loop [for j in b2j.get(a[i], nothing)] of [find_longest_match],
    with its [continue] below [blo] and its [break] from [bhi] on. *)
Fixpoint scan_row (blo bhi i : Z) (j2len : list (Z * Z)) (js : list Z)
  (newj2len : list (Z * Z)) (best : Match) : list (Z * Z) * Match :=
  match js with
  | [] => (newj2len, best)
  | j :: r =>
      if j <? blo then scan_row blo bhi i j2len r newj2len best
      else if bhi <=? j then (newj2len, best)
      else
        let k := j2len_get j2len (j - 1) + 1 in
        let newj2len' := (j, k) :: newj2len in
        if m_size best <? k
        then scan_row blo bhi i j2len r newj2len'
               {| m_a := i - k + 1; m_b := j - k + 1; m_size := k |}
        else scan_row blo bhi i j2len r newj2len' best
  end.

(** The loop [for i in range(alo, ahi)]; [n] counts the rows left. *)
Fixpoint scan_rows (a b : str) (blo bhi : Z) (n : nat) (i : Z)
  (j2len : list (Z * Z)) (best : Match) : Match :=
  match n with
  | O => best
  | S n' =>
      let '(newj2len, best') :=
        scan_row blo bhi i j2len (b2j_get b (at_ a i)) [] best in
      scan_rows a b blo bhi n' (i + 1) newj2len best'
  end.

(** The first [while]: extend the match to the left; it runs at most
    [besti - alo] times. *)
Fixpoint extend_left (a b : str) (alo blo : Z) (n : nat) (best : Match)
  : Match :=
  match n with
  | O => best
  | S n' =>
      if (alo <? m_a best) && (blo <? m_b best)
         && Ascii.eqb (at_ a (m_a best - 1)) (at_ b (m_b best - 1))
      then extend_left a b alo blo n'
             {| m_a := m_a best - 1; m_b := m_b best - 1;
                m_size := m_size best + 1 |}
      else best
  end.

(** The second [while]: extend the match to the right; it runs at most
    [ahi - (besti + bestsize)] times. *)
Fixpoint extend_right (a b : str) (ahi bhi : Z) (n : nat) (best : Match)
  : Match :=
  match n with
  | O => best
  | S n' =>
      if (m_a best + m_size best <? ahi) && (m_b best + m_size best <? bhi)
         && Ascii.eqb (at_ a (m_a best + m_size best))
                      (at_ b (m_b best + m_size best))
      then extend_right a b ahi bhi n'
             {| m_a := m_a best; m_b := m_b best;
                m_size := m_size best + 1 |}
      else best
  end.

(** [find_longest_match(alo, ahi, blo, bhi)].  The last two [while]
    loops of the method only run on elements of [bjunk], which is
    empty here, and are left out. *)
Definition find_longest_match (a b : str) (alo ahi blo bhi : Z) : Match :=
  let best0 := {| m_a := alo; m_b := blo; m_size := 0 |} in
  let best1 := scan_rows a b blo bhi (Z.to_nat (ahi - alo)) alo [] best0 in
  let best2 := extend_left a b alo blo (Z.to_nat (m_a best1 - alo)) best1 in
  extend_right a b ahi bhi (Z.to_nat (ahi - (m_a best2 + m_size best2))) best2.

Definition region : Type := Z * Z * Z * Z.

(** The [while queue:] loop of [get_matching_blocks]; [queue.pop()]
    takes the last element.  The result is the list of blocks found and
    the queue left when [fuel] iterations have run. *)
Fixpoint blocks_loop (a b : str) (fuel : nat) (queue : list region)
  (matching_blocks : list Match) : list Match * list region :=
  match fuel with
  | O => (matching_blocks, queue)
  | S fuel' =>
      match rev queue with
      | [] => (matching_blocks, queue)
      | (alo, ahi, blo, bhi) :: rq =>
          let queue1 := rev rq in
          let x := find_longest_match a b alo ahi blo bhi in
          let i := m_a x in let j := m_b x in let k := m_size x in
          if k =? 0 then blocks_loop a b fuel' queue1 matching_blocks
          else
            let queue2 :=
              if (alo <? i) && (blo <? j)
              then queue1 ++ [(alo, i, blo, j)] else queue1 in
            let queue3 :=
              if (i + k <? ahi) && (j + k <? bhi)
              then queue2 ++ [(i + k, ahi, j + k, bhi)] else queue2 in
            blocks_loop a b fuel' queue3 (matching_blocks ++ [x])
      end
  end.

(** Enough iterations for the queue to run empty (lemma
    [blocks_loop_done]). *)
Definition blocks_fuel (a : str) : nat := S (2 * List.length a).

(** [get_matching_blocks()] before it sorts the blocks, joins adjacent
    ones and appends the sentinel of size 0; none of these changes the
    sum of the sizes. *)
Definition get_matching_blocks (a b : str) : list Match :=
  fst (blocks_loop a b (blocks_fuel a) [(0, len a, 0, len b)] []).

(** [sum(triple[-1] for triple in self.get_matching_blocks())] *)
Definition matches (a b : str) : Z :=
  fold_left Z.add (map m_size (get_matching_blocks a b)) 0.

End Difflib.

(** ** Floating point: IEEE 754 binary64, as Python's [float] *)

Module Float.

Definition prec : Z := 53.
Definition emax : Z := 1024.

(** [float(z)] for an integer [z] *)
Definition of_Z (z : Z) : spec_float := binary_normalize prec emax z 0 false.

Definition mul := SFmul prec emax.
Definition div := SFdiv prec emax.
Definition leb := SFleb.

(** The literal [0.6]: the double nearest to 6/10. *)
(** [x / y] for integers [x] and [y <> 0]: the double nearest to the
    exact quotient, ties to even, as [int.__truediv__] computes it (the
    operands are not rounded first).  A quotient beyond the doubles
    comes out as an infinity, where Python raises [OverflowError]. *)
Definition int_div (x y : Z) : spec_float :=
  match x with
  | Z0 => S754_zero (y <? 0)
  | _ =>
      let '(q, e, l) :=
        SFdiv_core_binary prec emax (Z.abs x) 0 (Z.abs y) 0 in
      binary_round_aux prec emax (xorb (x <? 0) (y <? 0)) q e l
  end.

Definition lit_0_6 : spec_float := S754_finite false 5404319552844595 (-53).
Definition lit_1_0 : spec_float := of_Z 1.
Definition lit_2_0 : spec_float := of_Z 2.

End Float.

(** ** The quiz engine, [quiz.py] *)

Module Quiz.

Import Difflib.

Record Question := mkQuestion {
  text : str;
  answer : str;
  difficulty : Z   (* 0=easy, 1=medium, 2=hard *)
}.

(** *** Dictionaries with integer keys, in insertion order *)

Definition dict (V : Type) := list (Z * V).

(** [d[k]]; [None] stands for [KeyError]. *)
Fixpoint dict_get {V} (d : dict V) (k : Z) : option V :=
  match d with
  | [] => None
  | (k', v) :: r => if k' =? k then Some v else dict_get r k
  end.

(** [d[k] = v]: an existing key keeps its place, a new one goes last. *)
Fixpoint dict_set {V} (d : dict V) (k : Z) (v : V) : dict V :=
  match d with
  | [] => [(k, v)]
  | (k', v') :: r =>
      if k' =? k then (k', v) :: r else (k', v') :: dict_set r k v
  end.

Definition keys {V} (d : dict V) : list Z := map fst d.

(** *** Question generation *)

(** [max(xs, key=len)] for the non-empty list [x :: r] *)
Definition max_len (x : str) (r : list str) : str := max_by_len_from x r.

Definition question_template (keyword : str) : str :=
  lit "What does the term '" ++ keyword ++ lit "' refer to in this context?".

(** Lines 78-103 *)
Definition _generate_question_from_chunk (self_chunk : str)
  : option (str * str * Z) :=
  let sentences := re_split_sentences self_chunk in
  let sentences := map strip (filter (fun s => truthy (strip s)) sentences) in
  match sentences with
  | [] => None
  | s0 :: srest =>
      let sentence := max_len s0 srest in
      let words := map keep_alnum (split sentence) in
      let words := filter truthy words in
      match words with
      | [] => None
      | w0 :: wrest =>
          let keyword := max_len w0 wrest in
          let question := question_template keyword in
          let answer := strip sentence in
          let diff_score := Z.of_nat (List.length (split self_chunk)) in
          Some (question, answer, diff_score)
      end
  end.

(** Lines 105-112 *)
Definition _difficulty_from_length (word_count : Z) : Z :=
  if word_count <=? 40 then 0
  else if word_count <=? 100 then 1
  else 2.

(** *** Grading *)

(** [_calculate_ratio(matches, length)] of [difflib] *)
Definition _calculate_ratio (matches length : Z) : spec_float :=
  if negb (length =? 0)
  then Float.div (Float.mul Float.lit_2_0 (Float.of_Z matches))
                 (Float.of_Z length)
  else Float.lit_1_0.

(** [difflib.SequenceMatcher(None, a, b).ratio()] *)
Definition ratio (a b : str) : spec_float :=
  _calculate_ratio (matches a b) (len a + len b).

(** Lines 159-168 *)
Definition _check_answer (user correct : str) : bool :=
  let user_norm := lower (strip user) in
  let correct_norm := lower (strip correct) in
  if negb (truthy user_norm) || negb (truthy correct_norm) then false
  else Float.leb Float.lit_0_6 (ratio user_norm correct_norm).

(** *** The session object and the console *)

Record QuizSession := mkSession {
  raw_notes : str;
  topic : option str;
  min_chunk_length : Z;
  max_chunk_length : Z;
  questions_by_level : dict (list Question);
  current_level : Z;
  correct_count : Z;
  incorrect_count : Z
}.

Definition set_buckets (s : QuizSession) (d : dict (list Question)) :=
  mkSession (raw_notes s) (topic s) (min_chunk_length s)
    (max_chunk_length s) d (current_level s) (correct_count s)
    (incorrect_count s).

Definition set_level (s : QuizSession) (l : Z) :=
  mkSession (raw_notes s) (topic s) (min_chunk_length s)
    (max_chunk_length s) (questions_by_level s) l (correct_count s)
    (incorrect_count s).

Definition set_correct (s : QuizSession) (n : Z) :=
  mkSession (raw_notes s) (topic s) (min_chunk_length s)
    (max_chunk_length s) (questions_by_level s) (current_level s) n
    (incorrect_count s).

Definition set_incorrect (s : QuizSession) (n : Z) :=
  mkSession (raw_notes s) (topic s) (min_chunk_length s)
    (max_chunk_length s) (questions_by_level s) (current_level s)
    (correct_count s) n.

(** The console: the lines [input()] has still to read and, oldest
    first, what has been written, one entry for each [print] call and
    one for each prompt of [input]. *)
Record console := mkConsole {
  pending : list str;
  printed : list str
}.

Record world := mkWorld {
  self : QuizSession;
  tty : console
}.

Inductive exn :=
  KeyError | IndexError | EOFError | ZeroDivisionError.

Inductive result (A : Type) :=
| Ok (a : A)
| Raise (e : exn).
Arguments Ok {A} a.
Arguments Raise {A} e.

(** A computation on the session and the console that returns a value
    or raises; the effects made before a [raise] stay. *)
Definition M (A : Type) := world -> result A * world.

Definition ret {A} (a : A) : M A := fun w => (Ok a, w).

Definition bind {A B} (m : M A) (k : A -> M B) : M B :=
  fun w =>
    match m w with
    | (Ok a, w') => k a w'
    | (Raise e, w') => (Raise e, w')
    end.

Definition raise {A} (e : exn) : M A := fun w => (Raise e, w).

Notation "x <- m ;; k" := (bind m (fun x => k))
  (at level 61, m at next level, right associativity).
Notation "m ;;; k" := (bind m (fun _ => k))
  (at level 61, right associativity).

Definition get_self : M QuizSession := fun w => (Ok (self w), w).

Definition put_self (s : QuizSession) : M unit :=
  fun w => (Ok tt, mkWorld s (tty w)).

(** [print(line)] *)
Definition print (line : str) : M unit :=
  fun w =>
    (Ok tt,
     mkWorld (self w)
       (mkConsole (pending (tty w)) (printed (tty w) ++ [line]))).

(** [input(prompt)]: the prompt is written, then a line is read. *)
Definition input (prompt : str) : M str :=
  fun w =>
    let out := printed (tty w) ++ [prompt] in
    match pending (tty w) with
    | [] => (Raise EOFError, mkWorld (self w) (mkConsole [] out))
    | l :: r => (Ok l, mkWorld (self w) (mkConsole r out))
    end.

(** [if not quiet: m] *)
Definition unless (quiet : bool) (m : M unit) : M unit :=
  if quiet then ret tt else m.

(** [str(z)] for an integer *)
Definition str_of_Z (z : Z) : str :=
  lit (DecimalString.NilZero.string_of_int (Z.to_int z)).

(** [self.questions_by_level[l]] *)
Definition bucket (l : Z) : M (list Question) :=
  s <- get_self ;;
  match dict_get (questions_by_level s) l with
  | Some qs => ret qs
  | None => raise KeyError
  end.

(** The key [lambda l: len(self.questions_by_level[l])] of line 134. It
    is applied to keys of the dictionary only; the value at a missing
    key is immaterial. *)
Definition bucket_len (s : QuizSession) (l : Z) : Z :=
  match dict_get (questions_by_level s) l with
  | Some qs => Z.of_nat (List.length qs)
  | None => 0
  end.

(** [max(x :: r, key=key)]: the first element of greatest key. *)
Fixpoint max_by_key (key : Z -> Z) (best : Z) (r : list Z) : Z :=
  match r with
  | [] => best
  | x :: r' =>
      if key best <? key x then max_by_key key x r'
      else max_by_key key best r'
  end.

(** [[lvl for lvl, qs in self.questions_by_level.items() if qs]] *)
Definition remaining_levels_of (s : QuizSession) : list Z :=
  map fst
    (filter (fun p => match snd p with [] => false | _ => true end)
       (questions_by_level s)).

Inductive ctl := Continue | Break.

(** Lines 126-134: the choice of another level when the bucket of the
    current level is empty. *)
Definition reselect_level (quiet : bool) : M ctl :=
  s <- get_self ;;
  qs <- bucket (current_level s) ;;
  match qs with
  | [] =>
      match remaining_levels_of s with
      | [] =>
          unless quiet (print (lit "No more questions available.")) ;;;
          ret Break
      | l0 :: ls =>
          put_self (set_level s (max_by_key (bucket_len s) l0 ls)) ;;;
          ret Continue
      end
  | _ :: _ => ret Continue
  end.

(** Line 135: [self.questions_by_level[self.current_level].pop()] *)
Definition pop_question : M Question :=
  s <- get_self ;;
  qs <- bucket (current_level s) ;;
  match rev qs with
  | [] => raise IndexError
  | q :: rqs =>
      put_self (set_buckets s
                  (dict_set (questions_by_level s) (current_level s)
                     (rev rqs))) ;;;
      ret q
  end.

(** Lines 140-155: grading and the change of level. *)
Definition grade_and_adapt (quiet : bool) (q : Question) (user_answer : str)
  : M unit :=
  if _check_answer user_answer (answer q) then
    unless quiet (print (lit "Correct!")) ;;;
    s <- get_self ;;
    put_self (set_correct s (correct_count s + 1)) ;;;
    s <- get_self ;;
    if current_level s <? 2
    then put_self (set_level s (current_level s + 1))
    else ret tt
  else
    unless quiet
      (print (lit "Incorrect. Correct answer: " ++ answer q)) ;;;
    s <- get_self ;;
    put_self (set_incorrect s (incorrect_count s + 1)) ;;;
    s <- get_self ;;
    if 0 <? current_level s
    then put_self (set_level s (current_level s - 1))
    else ret tt.

Definition NL : ascii := "010"%char.

Definition question_header (i num_questions level : Z) : str :=
  NL :: lit "Question " ++ str_of_Z (i + 1) ++ lit "/"
     ++ str_of_Z num_questions ++ lit " (level " ++ str_of_Z level
     ++ lit "):".

(** Lines 125-155: the body of the loop of [ask]. *)
Definition ask_body (num_questions : Z) (quiet : bool) (i : Z) : M ctl :=
  c <- reselect_level quiet ;;
  match c with
  | Break => ret Break
  | Continue =>
      q <- pop_question ;;
      unless quiet
        (s <- get_self ;;
         print (question_header i num_questions (current_level s)) ;;;
         print (text q)) ;;;
      user_answer <- input (lit "Your answer: ") ;;
      grade_and_adapt quiet q user_answer ;;;
      ret Continue
  end.

(** [for i in range(...)]: [n] iterations are left, the next index is
    [i]; a [break] ends the loop. *)
Fixpoint for_range (body : Z -> M ctl) (n : nat) (i : Z) : M unit :=
  match n with
  | O => ret tt
  | S n' =>
      c <- body i ;;
      match c with
      | Break => ret tt
      | Continue => for_range body n' (i + 1)
      end
  end.

(** [f"{x:.1f}"]: the exact value of the double, rounded to tenths,
    ties to even. *)
Definition tenths (m : positive) (e : Z) : Z :=
  let n := 10 * Z.pos m in
  if 0 <=? e then n * 2 ^ e
  else
    let d := 2 ^ (- e) in
    let q := n / d in
    let r := n mod d in
    if d <? 2 * r then q + 1
    else if d =? 2 * r then (if Z.even q then q else q + 1)
    else q.

Definition format_1f (x : spec_float) : str :=
  match x with
  | S754_zero s => (if s then lit "-" else []) ++ lit "0.0"
  | S754_infinity s => (if s then lit "-" else []) ++ lit "inf"
  | S754_nan => lit "nan"
  | S754_finite s m e =>
      let t := tenths m e in
      (if s then lit "-" else []) ++ str_of_Z (t / 10) ++ lit "."
      ++ str_of_Z (t mod 10)
  end.

(** [x / y] on integers: true division, the correctly rounded exact
    quotient.  In [_print_summary] the quotient is at most 100 when the
    counters are not negative, as the counters of a session are, so
    that it is a finite double. *)
Definition true_div (x y : Z) : M spec_float :=
  if y =? 0 then raise ZeroDivisionError
  else ret (Float.int_div x y).

(** Lines 170-179 *)
Definition _print_summary (num_questions : Z) : M unit :=
  s <- get_self ;;
  let total_answered := correct_count s + incorrect_count s in
  print (NL :: lit "Quiz complete!") ;;;
  print (lit "Questions attempted: " ++ str_of_Z total_answered) ;;;
  print (lit "Correct answers:   " ++ str_of_Z (correct_count s)) ;;;
  print (lit "Incorrect answers: " ++ str_of_Z (incorrect_count s)) ;;;
  if negb (total_answered =? 0) then
    accuracy <- true_div (100 * correct_count s) total_answered ;;
    print (lit "Accuracy:         " ++ format_1f accuracy ++ lit "%")
  else ret tt.

(** Lines 114-157 *)
Definition ask (num_questions : Z) (quiet : bool) : M unit :=
  for_range (ask_body num_questions quiet) (Z.to_nat num_questions) 0 ;;;
  unless quiet (_print_summary num_questions).

(** *** Session set-up *)

(** Lines 62-71: the body of the loop over the chunks. *)
Definition add_chunk (topic : option str) (d : dict (list Question))
  (chunk : str) : result (dict (list Question)) :=
  let skip :=
    match topic with
    | Some t => truthy t && negb (contains (lower t) (lower chunk))
    | None => false
    end in
  if skip then Ok d
  else
    match _generate_question_from_chunk chunk with
    | None => Ok d
    | Some (question_text, answer_text, diff_score) =>
        let diff_level := _difficulty_from_length diff_score in
        match dict_get d diff_level with
        | None => Raise KeyError
        | Some qs =>
            Ok (dict_set d diff_level
                  (qs ++ [mkQuestion question_text answer_text diff_level]))
        end
    end.

Fixpoint add_chunks (topic : option str) (d : dict (list Question))
  (chunks : list str) : result (dict (list Question)) :=
  match chunks with
  | [] => Ok d
  | c :: r =>
      match add_chunk topic d c with
      | Ok d' => add_chunks topic d' r
      | Raise e => Raise e
      end
  end.

Section Setup.

(** [random.shuffle]: the order it leaves in the bucket of a level is
    any function of the bucket. *)
Variable shuffle : Z -> list Question -> list Question.

(** Lines 55-75 *)
Definition _prepare_questions (s : QuizSession) : result QuizSession :=
  let chunks :=
    split_into_chunks (raw_notes s) (min_chunk_length s)
      (max_chunk_length s) in
  match add_chunks (topic s) (questions_by_level s) chunks with
  | Raise e => Raise e
  | Ok d =>
      Ok (set_buckets s (map (fun p => (fst p, shuffle (fst p) (snd p))) d))
  end.

(** Lines 25-53 *)
Definition QuizSession_init (notes : str) (topic : option str)
  (min_chunk_length max_chunk_length : Z) : result QuizSession :=
  _prepare_questions
    (mkSession notes topic min_chunk_length max_chunk_length
       [(0, []); (1, []); (2, [])] 1 0 0).

End Setup.

End Quiz.

Import Quiz.

(** ** The command line, [cli.py] *)

Module Cli.

(** Lines 60-68: the body of [main] once the options are parsed and the
    notes file is read; [text] is what [f.read()] returned and [tty] the
    console.  The session lives inside [main]: what is left is the way
    [main] ends and the console.  [shuffle] stands for [random.shuffle]
    as in [QuizSession_init]. *)
Definition main (shuffle : Z -> list Question -> list Question)
  (text : str) (num_questions : Z) (topic : option str)
  (min_chunk_length max_chunk_length : Z) (quiet : bool) (tty : console)
  : result unit * console :=
  match QuizSession_init shuffle text topic min_chunk_length
          max_chunk_length with
  | Raise e => (Raise e, tty)
  | Ok session =>
      let '(r, w) := ask num_questions quiet (mkWorld session tty) in
      (r, Quiz.tty w)
  end.

End Cli.

Import Cli.

(** * The vocabulary of the properties *)

(** ** Strings and chunks *)

(** A string that does not start, resp. end, with white space. *)
Definition no_lead (s : str) : Prop :=
  match s with
  | c :: _ => isspace c = false
  | [] => True
  end.

Definition no_trail (s : str) : Prop := no_lead (rev s).

(** A chunk as the chunker returns it: not empty and equal to its own
    trimmed form. *)
Definition good (c : str) : Prop := c <> [] /\ strip c = c.

Definition buf_good (buf : str) : Prop := buf = [] \/ good buf.

(** The characters of a list of strings that are not white space. *)
Definition content (l : list str) : str := non_space (List.concat l).

Definition pending_chunk (buf : str) : nat := if truthy buf then 1 else 0.

(** [c] is a sentence longer than [max_length] of a paragraph of the
    text that is longer than [max_length]. *)
Definition oversized_sentence (text : str) (max_length : Z) (c : str)
  : Prop :=
  exists para,
    In para (paragraphs text) /\ max_length < len para /\
    In c (re_split_sentences para) /\ max_length < len c.

(** The text has a paragraph longer than [max_length] with a sentence
    of length at most [max_length]. *)
Definition has_split_paragraph (text : str) (max_length : Z) : Prop :=
  exists para s,
    In para (paragraphs text) /\ max_length < len para /\
    In s (re_split_sentences para) /\ len s <= max_length.

(** A chunk within the bound, or a whole sentence that exceeds it. *)
Definition bounded (text : str) (max_length : Z) (c : str) : Prop :=
  len c <= max_length \/ oversized_sentence text max_length c.

Definition buf_bounded (text : str) (max_length : Z) (buf : str) : Prop :=
  buf = [] \/ bounded text max_length buf.

(** ** Questions *)

(** [x] is the first element of greatest length of [l]: the elements
    before it are strictly shorter, those after it are not longer. *)
Definition first_longest (x : str) (l : list str) : Prop :=
  exists l1 l2,
    l = l1 ++ x :: l2
    /\ Forall (fun y => len y < len x) l1
    /\ Forall (fun y => len y <= len x) l2.

(** The stripped, non-empty sentences of the chunk (lines 86-87). *)
Definition sentences_of (chunk : str) : list str :=
  map strip (filter (fun s => truthy (strip s)) (re_split_sentences chunk)).

(** The non-empty tokens of a sentence after the characters outside
    [[A-Za-z0-9]] are removed (lines 93-94). *)
Definition tokens_of (sentence : str) : list str :=
  filter truthy (map keep_alnum (split sentence)).

(** [len(chunk.split())] *)
Definition word_count (chunk : str) : Z :=
  Z.of_nat (List.length (split chunk)).

(** ** Matching blocks *)

(** The values of [j2len] lie between 0 and [n]. *)
Definition vals_le (j2len : list (Z * Z)) (n : Z) : Prop :=
  Forall (fun p => 0 <= snd p <= n) j2len.

(** The match lies in [a[alo:n]]. *)
Definition within (alo n : Z) (x : Difflib.Match) : Prop :=
  0 <= Difflib.m_size x /\ alo <= Difflib.m_a x
  /\ Difflib.m_a x + Difflib.m_size x <= n.

(** The number of iterations a queue can still cause. *)
Definition weight (queue : list Difflib.region) : nat :=
  fold_right
    (fun '(alo, ahi, _, _) n => (S (2 * Z.to_nat (ahi - alo)) + n)%nat)
    O queue.

(** The test [ratio >= 0.6] on doubles and the test [2 * m / t >= 3 / 5]
    on rationals agree for [m] matches on a total length of [t]. *)
Definition threshold_agrees (m t : Z) : bool :=
  Bool.eqb (Float.leb Float.lit_0_6 (_calculate_ratio m t))
    (3 * t <=? 10 * m).

(** ** Sessions *)

(** The dictionary has the keys 0, 1, 2 in this order, as [__init__]
    creates it. *)
Definition three_levels (s : QuizSession) : Prop :=
  keys (questions_by_level s) = [0; 1; 2].

(** The invariant of a session: the three buckets are there and the
    level is one of theirs. *)
Definition level_ok (s : QuizSession) : Prop :=
  three_levels s /\ 0 <= current_level s <= 2.

(** The level after an answer is graded: one up after a correct
    answer unless it is 2, one down after an incorrect one unless it
    is 0. *)
Definition adapted (correct : bool) (level : Z) : Z :=
  if correct then (if level <? 2 then level + 1 else level)
  else (if 0 <? level then level - 1 else level).

(** The states a session goes through: the one [__init__] builds, with
    any console, and the states after each of the steps of [ask]. *)
Inductive reachable : world -> Prop :=
| reach_init shuffle notes tp mn mx s c :
    QuizSession_init shuffle notes tp mn mx = Ok s ->
    reachable (mkWorld s c)
| reach_reselect quiet w :
    reachable w -> reachable (snd (reselect_level quiet w))
| reach_pop w :
    reachable w -> reachable (snd (pop_question w))
| reach_grade quiet q user_answer w :
    reachable w -> reachable (snd (grade_and_adapt quiet q user_answer w))
| reach_body num_questions quiet i w :
    reachable w -> reachable (snd (ask_body num_questions quiet i w))
| reach_ask num_questions quiet w :
    reachable w -> reachable (snd (ask num_questions quiet w)).

(** What [w] becomes when [lines] are printed. *)
Definition printing (lines : list str) (w : world) : world :=
  mkWorld (self w) (mkConsole (pending (tty w)) (printed (tty w) ++ lines)).

(** The accuracy line of the summary. *)
Definition accuracy_line (correct total : Z) : str :=
  lit "Accuracy:         "
  ++ format_1f (Float.int_div (100 * correct) total)
  ++ lit "%".

(** The lines of the summary of a session. *)
Definition summary_lines (s : QuizSession) : list str :=
  let total_answered := correct_count s + incorrect_count s in
  [NL :: lit "Quiz complete!";
   lit "Questions attempted: " ++ str_of_Z total_answered;
   lit "Correct answers:   " ++ str_of_Z (correct_count s);
   lit "Incorrect answers: " ++ str_of_Z (incorrect_count s)]
  ++ (if total_answered =? 0 then []
      else [accuracy_line (correct_count s) total_answered]).

(** Two states that differ at most in what has been printed. *)
Definition same_state (w1 w2 : world) : Prop :=
  self w1 = self w2 /\ pending (tty w1) = pending (tty w2).

(** Run from such states, [m1] and [m2] return the same and end in such
    states. *)
Definition blind {A} (m1 m2 : M A) : Prop :=
  forall w1 w2,
    same_state w1 w2 ->
    fst (m1 w1) = fst (m2 w2) /\ same_state (snd (m1 w1)) (snd (m2 w2)).

(** [m] only prints. *)
Definition silent {A} (m : M A) : Prop :=
  forall w, (exists a, fst (m w) = Ok a) /\ same_state w (snd (m w)).

(** ** Sample inputs *)

(** Two line feeds: a paragraph boundary. *)
Definition NL2 : str := [NL; NL].

(** A text of one paragraph with two sentences longer than 5 characters
    and one shorter. *)
Definition two_long_sentences : str := lit "aaaaaaaa. bb. cccccccc.".

(** Three paragraphs: one of 8 characters and two of 2. *)
Definition small_neighbours : str :=
  lit "aaaaaaaa" ++ NL2 ++ lit "bb" ++ NL2 ++ lit "cc".

Definition two_right_one_wrong : world :=
  mkWorld (mkSession [] None 50 300 [(0, []); (1, []); (2, [])] 1 2 1)
    (mkConsole [] []).

Definition qn (name : string) : Question := mkQuestion (lit name) (lit name) 0.

(** Level 1 is empty; levels 0 and 2 hold two questions each. *)
Definition tie_world : world :=
  mkWorld
    (mkSession [] None 50 300
       [(0, [qn "a"; qn "b"]); (1, []); (2, [qn "c"; qn "d"])] 1 0 0)
    (mkConsole [] []).

(** A session on notes of two short paragraphs, no shuffling. *)
Definition demo_notes : str :=
  lit "Paris is the capital of France." ++ NL2
  ++ lit "The mitochondria is the powerhouse of the cell.".

Definition demo_session : result QuizSession :=
  QuizSession_init (fun _ qs => qs) demo_notes None 10 40.

Definition demo_world : world :=
  match demo_session with
  | Ok s =>
      mkWorld s
        (mkConsole
           [lit "the mitochondria is the powerhouse"; lit "no idea"] [])
  | Raise _ => mkWorld (mkSession [] None 0 0 [] 0 0 0) (mkConsole [] [])
  end.

(** The same session with one line of input only. *)
Definition short_input_world : world :=
  mkWorld (self demo_world) (mkConsole [lit "the mitochondria"] []).

(** ** Further vocabulary *)

(** [p] is a contiguous piece of [s]. *)
Definition infix (p s : str) : Prop := exists pre post, s = pre ++ p ++ post.

(** The sentences of all paragraphs, in order. *)
Definition all_sentences (paras : list str) : list str :=
  flat_map re_split_sentences paras.

(** What [if buf: chunks.append(buf)] appends. *)
Definition flushed (buf : str) : list str :=
  if truthy buf then [buf] else [].

(** The number of questions left in the buckets. *)
Definition total_questions (s : QuizSession) : Z :=
  fold_right (fun p n => Z.of_nat (List.length (snd p)) + n) 0
    (questions_by_level s).

(** The number of answers graded so far. *)
Definition answered (s : QuizSession) : Z :=
  correct_count s + incorrect_count s.

(** The prompt of [input] in [ask]. *)
Definition prompt : str := lit "Your answer: ".

(** The question lines 62-71 make of a chunk, if any: none when the
    topic filter skips the chunk or no question can be generated. *)
Definition question_of (topic : option str) (chunk : str) : option Question :=
  let skip :=
    match topic with
    | Some t => truthy t && negb (contains (lower t) (lower chunk))
    | None => false
    end in
  if skip then None
  else
    match _generate_question_from_chunk chunk with
    | None => None
    | Some (question_text, answer_text, diff_score) =>
        Some (mkQuestion question_text answer_text
                (_difficulty_from_length diff_score))
    end.

(** The same as a list of at most one question. *)
Definition one_question (topic : option str) (chunk : str) : list Question :=
  match question_of topic chunk with Some q => [q] | None => [] end.

(** The questions of a list of chunks, in the order of the chunks. *)
Definition questions_of (topic : option str) (chunks : list str)
  : list Question :=
  flat_map (one_question topic) chunks.

(** Those of difficulty [l]. *)
Definition questions_at (l : Z) (qs : list Question) : list Question :=
  filter (fun q => difficulty q =? l) qs.

(** [random.shuffle] reorders a list: what it leaves is a permutation. *)
Definition shuffles (shuffle : Z -> list Question -> list Question) : Prop :=
  forall l qs, Permutation (shuffle l qs) qs.

(** The number of questions [ask] can serve: [num_questions], if that is
    positive, but no more than there are. *)
Definition to_serve (num_questions : Z) (s : QuizSession) : Z :=
  Z.min (Z.max 0 num_questions) (total_questions s).

(** What one iteration of the loop of [ask] does, by the way it ends:
    it serves a question, breaks because none is left, runs out of
    input after it took a question out, or raises otherwise. *)
Definition body_outcome (quiet : bool) (w : world) (r : result ctl)
  (w' : world) : Prop :=
  correct_count (self w) <= correct_count (self w')
  /\ incorrect_count (self w) <= incorrect_count (self w')
  /\ match r with
     | Ok Continue =>
         answered (self w') = answered (self w) + 1
         /\ total_questions (self w') = total_questions (self w) - 1
         /\ (exists a, pending (tty w) = a :: pending (tty w'))
         /\ (quiet = true -> printed (tty w') = printed (tty w) ++ [prompt])
     | Ok Break =>
         answered (self w') = answered (self w)
         /\ total_questions (self w') = total_questions (self w)
         /\ total_questions (self w) = 0
         /\ pending (tty w') = pending (tty w)
         /\ (quiet = true -> printed (tty w') = printed (tty w))
     | Raise EOFError =>
         answered (self w') = answered (self w)
         /\ total_questions (self w') = total_questions (self w) - 1
         /\ pending (tty w) = [] /\ pending (tty w') = []
         /\ (quiet = true -> printed (tty w') = printed (tty w) ++ [prompt])
     | Raise _ =>
         answered (self w') = answered (self w)
         /\ total_questions (self w') = total_questions (self w)
         /\ pending (tty w') = pending (tty w)
         /\ (quiet = true -> printed (tty w') = printed (tty w))
     end.

(** What [n] iterations do: [k] questions are served, and the loop ends
    normally, or on the end of the input with one more question taken
    out, or on another exception. *)
Definition loop_outcome (quiet : bool) (n : nat) (w : world)
  (r : result unit) (w' : world) : Prop :=
  exists k : nat,
    (k <= n)%nat
    /\ (k <= List.length (pending (tty w)))%nat
    /\ pending (tty w') = skipn k (pending (tty w))
    /\ answered (self w') = answered (self w) + Z.of_nat k
    /\ correct_count (self w) <= correct_count (self w')
    /\ incorrect_count (self w) <= incorrect_count (self w')
    /\ match r with
       | Ok _ =>
           total_questions (self w')
           = total_questions (self w) - Z.of_nat k
           /\ (quiet = true ->
               printed (tty w') = printed (tty w) ++ repeat prompt k)
           /\ ((k < n)%nat -> total_questions (self w') = 0)
       | Raise EOFError =>
           total_questions (self w')
           = total_questions (self w) - Z.of_nat k - 1
           /\ List.length (pending (tty w)) = k
           /\ (quiet = true ->
               printed (tty w') = printed (tty w) ++ repeat prompt (S k))
           /\ (k < n)%nat
       | Raise _ =>
           total_questions (self w')
           = total_questions (self w) - Z.of_nat k
           /\ (quiet = true ->
               printed (tty w') = printed (tty w) ++ repeat prompt k)
           /\ (k < n)%nat
       end.

(** The session [__init__] builds from the notes (lemma
    [init_buckets]). *)
Definition built_session (shuffle : Z -> list Question -> list Question)
  (notes : str) (tp : option str) (mn mx : Z) : QuizSession :=
  mkSession notes tp mn mx
    (map (fun l =>
            (l, shuffle l
                  (questions_at l
                     (questions_of tp (split_into_chunks notes mn mx)))))
       [0; 1; 2])
    1 0 0.

(** * Properties *)

(** ** Facts about strings *)

Section StrFacts.

Lemma len_nonneg (s : str) : 0 <= len s.
Proof. unfold len; lia. Qed.

Lemma len_app (s t : str) : len (s ++ t) = len s + len t.
Proof. unfold len; rewrite length_app; lia. Qed.

Lemma len_cons (c : ascii) (s : str) : len (c :: s) = 1 + len s.
Proof. unfold len; simpl List.length; lia. Qed.

Lemma len_nil : len [] = 0.
Proof. reflexivity. Qed.

Lemma len_rev (s : str) : len (rev s) = len s.
Proof. unfold len; now rewrite length_rev. Qed.

Lemma len_join_sp (a b : str) : len (join_sp a b) = len a + len b + 1.
Proof. unfold join_sp; rewrite len_app, len_cons; lia. Qed.

Lemma truthy_true (s : str) : truthy s = true <-> s <> [].
Proof. destruct s; simpl; split; congruence. Qed.

Lemma truthy_false (s : str) : truthy s = false <-> s = [].
Proof. destruct s; simpl; split; congruence. Qed.

Lemma truthy_len (s : str) : truthy s = true <-> 0 < len s.
Proof.
  destruct s; simpl; [rewrite len_nil | rewrite len_cons];
    split; try congruence; try lia.
  intros _. pose proof (len_nonneg s). lia.
Qed.

Lemma lstrip_no_lead (s : str) : no_lead (lstrip s).
Proof.
  induction s as [|c r IH]; simpl; [exact I|].
  destruct (isspace c) eqn:E; [exact IH | exact E].
Qed.

Lemma lstrip_fix (s : str) : no_lead s -> lstrip s = s.
Proof. destruct s as [|c r]; simpl; [reflexivity|]. now intros ->. Qed.

(** [lstrip] drops a prefix of white space. *)
Lemma lstrip_split (s : str) :
  exists t, s = t ++ lstrip s /\ Forall (fun c => isspace c = true) t.
Proof.
  induction s as [|c r (t & Ht & Hall)]; simpl.
  - exists []. now split.
  - destruct (isspace c) eqn:E.
    + exists (c :: t). split; [simpl; congruence | now constructor].
    + exists []. now split.
Qed.

Lemma rstrip_split (s : str) :
  exists t, s = rstrip s ++ t /\ Forall (fun c => isspace c = true) t.
Proof.
  unfold rstrip. destruct (lstrip_split (rev s)) as (t & Ht & Hall).
  exists (rev t). split.
  - rewrite <- rev_app_distr, <- Ht. now rewrite rev_involutive.
  - now apply Forall_rev.
Qed.

Lemma rstrip_no_trail (s : str) : no_trail (rstrip s).
Proof.
  unfold no_trail, rstrip. rewrite rev_involutive. apply lstrip_no_lead.
Qed.

Lemma rstrip_fix (s : str) : no_trail s -> rstrip s = s.
Proof.
  unfold no_trail, rstrip. intros H. rewrite (lstrip_fix _ H).
  apply rev_involutive.
Qed.

Lemma rstrip_keeps_no_lead (s : str) : no_lead s -> no_lead (rstrip s).
Proof.
  intros H. destruct (rstrip_split s) as (t & Ht & _).
  destruct (rstrip s) as [|c r]; [exact I|].
  rewrite Ht in H. exact H.
Qed.

Lemma strip_no_lead (s : str) : no_lead (strip s).
Proof. apply rstrip_keeps_no_lead, lstrip_no_lead. Qed.

Lemma strip_no_trail (s : str) : no_trail (strip s).
Proof. apply rstrip_no_trail. Qed.

Lemma strip_fix (s : str) : no_lead s -> no_trail s -> strip s = s.
Proof.
  intros Hl Ht. unfold strip. rewrite (lstrip_fix _ Hl). now apply rstrip_fix.
Qed.

Lemma strip_fix_inv (s : str) : strip s = s -> no_lead s /\ no_trail s.
Proof.
  intros <-. split; [apply strip_no_lead | apply strip_no_trail].
Qed.

Lemma strip_idem (s : str) : strip (strip s) = strip s.
Proof. apply strip_fix; [apply strip_no_lead | apply strip_no_trail]. Qed.

Lemma len_lstrip (s : str) : len (lstrip s) <= len s.
Proof.
  destruct (lstrip_split s) as (t & Ht & _).
  rewrite Ht at 2. rewrite len_app. pose proof (len_nonneg t). lia.
Qed.

Lemma len_strip (s : str) : len (strip s) <= len s.
Proof.
  unfold strip, rstrip. rewrite len_rev.
  pose proof (len_lstrip (rev (lstrip s))) as H1. rewrite len_rev in H1.
  pose proof (len_lstrip s). lia.
Qed.

Lemma non_space_app (s t : str) :
  non_space (s ++ t) = non_space s ++ non_space t.
Proof. apply filter_app. Qed.

Lemma non_space_rev (s : str) : non_space (rev s) = rev (non_space s).
Proof. unfold non_space. now rewrite filter_rev. Qed.

Lemma non_space_spaces (t : str) :
  Forall (fun c => isspace c = true) t -> non_space t = [].
Proof.
  induction 1 as [|c r Hc _ IH]; simpl; [reflexivity|]. now rewrite Hc.
Qed.

Lemma non_space_lstrip (s : str) : non_space (lstrip s) = non_space s.
Proof.
  destruct (lstrip_split s) as (t & Ht & Hall).
  rewrite Ht at 2. rewrite non_space_app, (non_space_spaces _ Hall).
  reflexivity.
Qed.

Lemma non_space_strip (s : str) : non_space (strip s) = non_space s.
Proof.
  unfold strip, rstrip.
  rewrite non_space_rev, non_space_lstrip, non_space_rev, rev_involutive.
  apply non_space_lstrip.
Qed.

Lemma isspace_SP : isspace SP = true.
Proof. reflexivity. Qed.

Lemma non_space_join_sp (a b : str) :
  non_space (join_sp a b) = non_space a ++ non_space b.
Proof.
  unfold join_sp. rewrite non_space_app. reflexivity.
Qed.

Lemma non_space_snoc (s : str) (c : ascii) :
  non_space (s ++ [c]) = non_space s ++ non_space [c].
Proof. apply non_space_app. Qed.

(** A non-empty string without leading white space has a character
    that is not white space. *)
Lemma no_lead_content (s : str) : no_lead s -> s <> [] -> non_space s <> [].
Proof.
  destruct s as [|c r]; [congruence|]. simpl. intros -> _. discriminate.
Qed.

Lemma strip_nonempty (s : str) : non_space s <> [] -> strip s <> [].
Proof.
  intros H E. apply H. rewrite <- non_space_strip, E. reflexivity.
Qed.

Lemma no_trail_snoc (s : str) (c : ascii) :
  isspace c = false -> no_trail (s ++ [c]).
Proof. intros H. unfold no_trail. rewrite rev_app_distr. exact H. Qed.

Lemma no_trail_snoc_inv (s : str) (c : ascii) :
  no_trail (s ++ [c]) -> isspace c = false.
Proof. unfold no_trail. rewrite rev_app_distr. simpl. auto. Qed.

(** The last character decides: a tail that is not empty carries the
    property of the whole string. *)
Lemma no_trail_app_r (s t : str) : t <> [] -> no_trail (s ++ t) -> no_trail t.
Proof.
  unfold no_trail. intros Ht. rewrite rev_app_distr.
  destruct (rev t) as [|c r] eqn:E.
  - apply (f_equal (@rev _)) in E. rewrite rev_involutive in E. now subst.
  - simpl. auto.
Qed.

Lemma no_trail_app_l (s t : str) : t <> [] -> no_trail t -> no_trail (s ++ t).
Proof.
  unfold no_trail. intros Ht. rewrite rev_app_distr.
  destruct (rev t) as [|c r] eqn:E.
  - apply (f_equal (@rev _)) in E. rewrite rev_involutive in E. now subst.
  - simpl. auto.
Qed.

Lemma no_lead_app (s t : str) : s <> [] -> no_lead s -> no_lead (s ++ t).
Proof. destruct s; [congruence | simpl; auto]. Qed.

Lemma no_lead_app_inv (s t : str) : no_lead (s ++ t) -> no_lead s.
Proof. destruct s; simpl; auto. Qed.

End StrFacts.

(** ** The loops of the chunker as invariant rules *)

Section ChunkerRules.

Variable max_length : Z.

(** The loop over the sentences: an invariant [I rest chunks buf] on the
    sentences still to come, [chunks] and [buf] that every branch of the
    body keeps holds when the loop is over. *)
Lemma pack_sentences_rule (I : list str -> list str -> str -> Prop) :
  (forall sent rest chunks buf,
      I (sent :: rest) chunks buf -> sent = [] -> I rest chunks buf) ->
  (forall sent rest chunks buf,
      I (sent :: rest) chunks buf -> sent <> [] ->
      len buf + len sent + 1 <= max_length ->
      I rest chunks (strip (join_sp buf sent))) ->
  (forall sent rest chunks buf,
      I (sent :: rest) chunks buf -> sent <> [] ->
      max_length < len buf + len sent + 1 ->
      I rest (if truthy buf then chunks ++ [buf] else chunks) sent) ->
  forall sentences chunks buf,
    I sentences chunks buf ->
    I [] (fst (pack_sentences max_length sentences chunks buf))
         (snd (pack_sentences max_length sentences chunks buf)).
Proof.
  intros Hskip Hjoin Hflush.
  induction sentences as [|sent rest IH]; intros chunks buf HI; simpl.
  - exact HI.
  - destruct (truthy sent) eqn:Et; simpl.
    + apply truthy_true in Et.
      destruct (Z.leb_spec (len buf + len sent + 1) max_length).
      * apply IH. now apply Hjoin.
      * apply IH. now apply Hflush.
    + apply truthy_false in Et. apply IH. now apply (Hskip sent).
Qed.

(** The loop over the paragraphs. *)
Lemma first_pass_rule (I : list str -> list str -> Prop) :
  (forall para rest chunks,
      I (para :: rest) chunks -> I rest (add_paragraph max_length chunks para)) ->
  forall paras chunks,
    I paras chunks -> I [] (fold_left (add_paragraph max_length) paras chunks).
Proof.
  intros Hstep. induction paras as [|para rest IH]; intros chunks HI; simpl.
  - exact HI.
  - apply IH. now apply Hstep.
Qed.

Variable min_length : Z.

(** The loop of the second pass. *)
Lemma merge_loop_rule (I : list str -> list str -> str -> Prop) :
  (forall chunk rest merged buf,
      I (chunk :: rest) merged buf ->
      len buf + len chunk + 1 <= max_length ->
      len buf < min_length \/ len chunk < min_length ->
      I rest merged (strip (join_sp buf chunk))) ->
  (forall chunk rest merged buf,
      I (chunk :: rest) merged buf ->
      ~ (len buf + len chunk + 1 <= max_length
         /\ (len buf < min_length \/ len chunk < min_length)) ->
      I rest ((if truthy buf then merged ++ [buf] else merged) ++ [chunk]) []) ->
  forall chunks merged buf,
    I chunks merged buf ->
    I [] (fst (merge_loop min_length max_length chunks merged buf))
         (snd (merge_loop min_length max_length chunks merged buf)).
Proof.
  intros Hjoin Hflush.
  induction chunks as [|chunk rest IH]; intros merged buf HI; simpl.
  - exact HI.
  - destruct ((len buf + len chunk + 1 <=? max_length)
              && ((len buf <? min_length) || (len chunk <? min_length)))
      eqn:E.
    + apply andb_prop in E. destruct E as [E1 E2].
      apply Z.leb_le in E1. apply orb_prop in E2.
      apply IH. apply Hjoin; [exact HI | exact E1 |].
      destruct E2 as [E2|E2]; apply Z.ltb_lt in E2; auto.
    + apply IH. apply Hflush; [exact HI|].
      intros [H1 H2]. apply Z.leb_le in H1.
      assert ((len buf <? min_length) || (len chunk <? min_length) = true) as H3.
      { apply orb_true_iff. destruct H2 as [H2|H2]; apply Z.ltb_lt in H2; auto. }
      rewrite H1, H3 in E. discriminate.
Qed.

End ChunkerRules.

(** ** What the splitting functions return *)

Section SplitFacts.

Lemma good_intro (c : str) : c <> [] -> no_lead c -> no_trail c -> good c.
Proof. intros H1 H2 H3. split; [exact H1 | now apply strip_fix]. Qed.

Lemma good_strip (c : str) : truthy (strip c) = true -> good (strip c).
Proof. intros H. split; [now apply truthy_true | apply strip_idem]. Qed.

Lemma is_newline_space (c : ascii) : is_newline c = true -> isspace c = true.
Proof.
  unfold is_newline, isspace. intros H. apply Z.eqb_eq in H. now rewrite H.
Qed.

Lemma non_space_space (c : ascii) (s : str) :
  isspace c = true -> non_space (c :: s) = non_space s.
Proof. intros H. simpl. now rewrite H. Qed.

Lemma split_paragraphs_from_cons (in_sep : bool) (cur : str) (c : ascii)
  (r : str) :
  split_paragraphs_from in_sep cur (c :: r)
  = if is_newline c then
      if in_sep then split_paragraphs_from true [] r
      else if match r with c' :: _ => is_newline c' | [] => false end
           then cur :: split_paragraphs_from true [] r
           else split_paragraphs_from false (cur ++ [c]) r
    else split_paragraphs_from false (cur ++ [c]) r.
Proof.
  destruct r as [|c' r']; cbn [split_paragraphs_from];
    destruct (is_newline c), in_sep; try reflexivity.
Qed.

Lemma split_paragraphs_content (s : str) :
  forall in_sep cur,
    (in_sep = true -> cur = []) ->
    non_space (List.concat (split_paragraphs_from in_sep cur s))
    = non_space cur ++ non_space s.
Proof.
  induction s as [|c r IH]; intros in_sep cur Hsep.
  - simpl. now rewrite !app_nil_r.
  - rewrite split_paragraphs_from_cons.
    destruct (is_newline c) eqn:En.
    + pose proof (is_newline_space _ En) as Es.
      rewrite (non_space_space _ _ Es).
      destruct in_sep.
      * rewrite (Hsep eq_refl). now rewrite IH.
      * destruct (match r with c' :: _ => is_newline c' | [] => false end).
        -- cbn [List.concat]. rewrite non_space_app. now rewrite IH.
        -- rewrite IH by discriminate.
           rewrite non_space_snoc, (non_space_space _ _ Es).
           now rewrite app_nil_r.
    + rewrite IH by discriminate.
      rewrite non_space_snoc, <- app_assoc.
      now rewrite <- (non_space_app [c] r).
Qed.

Lemma split_sentences_content (s : str) :
  forall in_sep after_end cur,
    (in_sep = true -> cur = []) ->
    non_space (List.concat (split_sentences_from in_sep after_end cur s))
    = non_space cur ++ non_space s.
Proof.
  induction s as [|c r IH]; intros in_sep after_end cur Hsep; simpl.
  - now rewrite !app_nil_r.
  - destruct (isspace c) eqn:Es; simpl.
    + destruct in_sep.
      * rewrite (Hsep eq_refl). now rewrite IH.
      * destruct after_end.
        -- simpl List.concat. rewrite non_space_app. now rewrite IH.
        -- rewrite IH by discriminate.
           rewrite non_space_snoc. simpl. rewrite Es.
           now rewrite app_nil_r.
    + rewrite IH by discriminate.
      rewrite non_space_snoc, <- app_assoc. simpl. now rewrite Es.
Qed.

(** The sentences of a trimmed, non-empty paragraph are trimmed and
    non-empty. *)
Lemma split_sentences_good (s : str) :
  forall in_sep after_end cur,
    (in_sep = true -> cur = []) ->
    (in_sep = false -> no_lead (cur ++ s)) ->
    cur ++ s <> [] ->
    no_trail (cur ++ s) ->
    (after_end = true -> cur <> [] /\ no_trail cur) ->
    Forall good (split_sentences_from in_sep after_end cur s).
Proof.
  induction s as [|c r IH];
    intros in_sep after_end cur Hsep Hlead Hne Htr Haft; simpl.
  - rewrite app_nil_r in *. destruct in_sep; [now specialize (Hsep eq_refl)|].
    constructor; [|constructor]. apply good_intro; auto.
  - assert (isspace c = true -> r <> [] /\ no_trail r) as Hr.
    { intros Es.
      assert (no_trail (c :: r)) as H by
        (apply (no_trail_app_r cur); [discriminate | exact Htr]).
      destruct r as [|c' r'].
      - unfold no_trail in H. simpl in H. congruence.
      - split; [discriminate|].
        apply (no_trail_app_r [c]); [discriminate | exact H]. }
    destruct (isspace c) eqn:Es.
    + destruct (Hr eq_refl) as [Hr1 Hr2].
      destruct in_sep.
      * apply IH; simpl; auto; discriminate.
      * destruct after_end.
        -- destruct (Haft eq_refl) as [Hc1 Hc2]. constructor.
           ++ apply good_intro; auto.
              apply (no_lead_app_inv cur (c :: r)). now apply Hlead.
           ++ apply IH; simpl; auto; discriminate.
        -- apply IH; rewrite <- ?app_assoc; simpl; auto; discriminate.
    + apply IH.
      * discriminate.
      * intros _. rewrite <- app_assoc. simpl. destruct in_sep; [|now apply Hlead].
        rewrite (Hsep eq_refl). exact Es.
      * rewrite <- app_assoc. exact Hne.
      * rewrite <- app_assoc. exact Htr.
      * intros _. split; [now destruct cur | now apply no_trail_snoc].
Qed.

Lemma re_split_sentences_good (para : str) :
  good para -> Forall good (re_split_sentences para).
Proof.
  intros [Hne Hs]. apply strip_fix_inv in Hs. destruct Hs as [Hl Ht].
  apply split_sentences_good; simpl; auto; discriminate.
Qed.

Lemma paragraphs_good (text : str) : Forall good (paragraphs text).
Proof.
  unfold paragraphs. apply Forall_map.
  apply Forall_forall. intros p Hp. apply filter_In in Hp.
  now apply good_strip.
Qed.

Lemma concat_filter_content (l : list str) :
  non_space (List.concat (map strip (filter (fun p => truthy (strip p)) l)))
  = non_space (List.concat l).
Proof.
  induction l as [|p r IH]; simpl; [reflexivity|].
  rewrite non_space_app, <- IH.
  destruct (truthy (strip p)) eqn:E; simpl.
  - now rewrite non_space_app, non_space_strip.
  - apply truthy_false in E. rewrite <- (non_space_strip p), E. reflexivity.
Qed.

Lemma paragraphs_content (text : str) :
  non_space (List.concat (paragraphs text)) = non_space text.
Proof.
  unfold paragraphs. rewrite concat_filter_content.
  unfold re_split_paragraphs. now rewrite split_paragraphs_content.
Qed.

Lemma re_split_sentences_content (para : str) :
  non_space (List.concat (re_split_sentences para)) = non_space para.
Proof.
  unfold re_split_sentences. now rewrite split_sentences_content.
Qed.

End SplitFacts.

(** ** The chunks are trimmed and not empty *)

Section ChunksGood.

Variables min_length max_length : Z.

Lemma good_content (c : str) : good c -> non_space c <> [].
Proof.
  intros [Hne Hs]. apply strip_fix_inv in Hs.
  now apply no_lead_content.
Qed.

Lemma good_join (buf sent : str) : good sent -> good (strip (join_sp buf sent)).
Proof.
  intros Hs. apply good_strip, truthy_true, strip_nonempty.
  rewrite non_space_join_sp. intros E. apply app_eq_nil in E.
  now apply (good_content sent).
Qed.

Lemma flush_good (chunks : list str) (buf : str) :
  Forall good chunks -> buf_good buf ->
  Forall good (if truthy buf then chunks ++ [buf] else chunks).
Proof.
  intros Hc Hb. destruct (truthy buf) eqn:E; [|exact Hc].
  apply truthy_true in E. apply Forall_app. split; [exact Hc|].
  constructor; [|constructor]. now destruct Hb.
Qed.

Lemma pack_sentences_good (sentences chunks : list str) (buf : str) :
  Forall good sentences -> Forall good chunks -> buf_good buf ->
  Forall good (fst (pack_sentences max_length sentences chunks buf))
  /\ buf_good (snd (pack_sentences max_length sentences chunks buf)).
Proof.
  intros Hs Hc Hb.
  cut (Forall good [] /\
       Forall good (fst (pack_sentences max_length sentences chunks buf)) /\
       buf_good (snd (pack_sentences max_length sentences chunks buf)));
    [tauto|].
  apply (pack_sentences_rule max_length
           (fun rest chunks buf =>
              Forall good rest /\ Forall good chunks /\ buf_good buf));
    [ | | | now auto]; clear.
  - intros sent rest chunks buf (Hr & Hc & Hb) _.
    inversion Hr; subst. auto.
  - intros sent rest chunks buf (Hr & Hc & Hb) _ _.
    inversion Hr; subst. repeat split; auto. right. now apply good_join.
  - intros sent rest chunks buf (Hr & Hc & Hb) _ _.
    inversion Hr; subst. repeat split; auto.
    + now apply flush_good.
    + now right.
Qed.

Lemma add_paragraph_good (chunks : list str) (para : str) :
  good para -> Forall good chunks ->
  Forall good (add_paragraph max_length chunks para).
Proof.
  intros Hp Hc. unfold add_paragraph.
  destruct (len para <=? max_length).
  - apply Forall_app. split; [exact Hc | constructor; [assumption | constructor]].
  - destruct (pack_sentences_good (re_split_sentences para) chunks [])
      as [H1 H2]; auto using re_split_sentences_good.
    + now left.
    + destruct (pack_sentences _ _ _ _) as [chunks' buf]. simpl in *.
      now apply flush_good.
Qed.

Lemma first_pass_good (paras : list str) :
  Forall good paras -> Forall good (first_pass max_length paras).
Proof.
  intros Hp. unfold first_pass.
  apply (first_pass_rule max_length
           (fun rest chunks => Forall good rest /\ Forall good chunks)).
  - intros para rest chunks [Hr Hc]. inversion Hr; subst.
    split; [assumption | now apply add_paragraph_good].
  - now split.
Qed.

Lemma merge_loop_good (chunks merged : list str) (buf : str) :
  Forall good chunks -> Forall good merged -> buf_good buf ->
  Forall good (fst (merge_loop min_length max_length chunks merged buf))
  /\ buf_good (snd (merge_loop min_length max_length chunks merged buf)).
Proof.
  intros Hs Hc Hb.
  cut (Forall good [] /\
       Forall good (fst (merge_loop min_length max_length chunks merged buf)) /\
       buf_good (snd (merge_loop min_length max_length chunks merged buf)));
    [tauto|].
  apply (merge_loop_rule max_length min_length
           (fun rest merged buf =>
              Forall good rest /\ Forall good merged /\ buf_good buf));
    [ | | now auto]; clear.
  - intros chunk rest merged buf (Hr & Hc & Hb) _ _.
    inversion Hr; subst. repeat split; auto. right. now apply good_join.
  - intros chunk rest merged buf (Hr & Hc & Hb) _.
    inversion Hr; subst. repeat split; auto.
    + apply Forall_app. split; [now apply flush_good | constructor; [assumption | constructor]].
    + now left.
Qed.

Lemma merge_pass_good (chunks : list str) :
  Forall good chunks -> Forall good (merge_pass min_length max_length chunks).
Proof.
  intros Hc. unfold merge_pass.
  destruct (merge_loop_good chunks [] []) as [H1 H2]; auto.
  - now left.
  - destruct (merge_loop _ _ _ _ _) as [merged buf]. simpl in *.
    now apply flush_good.
Qed.

End ChunksGood.

(** C10.  Every string in the list returned by [split_into_chunks] is
    non-empty and equals its own white-space-trimmed form, whatever the
    text, [min_length] and [max_length]. *)
Theorem C10_chunks_nonempty_trimmed (text : str) (min_length max_length : Z) :
  forall c, In c (split_into_chunks text min_length max_length) ->
            c <> [] /\ strip c = c.
Proof.
  apply Forall_forall. unfold split_into_chunks.
  apply merge_pass_good, first_pass_good, paragraphs_good.
Qed.

(** ** The chunks keep the characters of the text *)

Section ChunksContent.

Variables min_length max_length : Z.

Lemma content_cons (c : str) (l : list str) :
  content (c :: l) = non_space c ++ content l.
Proof. unfold content. simpl. apply non_space_app. Qed.

Lemma content_app (l1 l2 : list str) :
  content (l1 ++ l2) = content l1 ++ content l2.
Proof. unfold content. rewrite concat_app. apply non_space_app. Qed.

Lemma content_snoc (l : list str) (c : str) :
  content (l ++ [c]) = content l ++ non_space c.
Proof. rewrite content_app, content_cons. unfold content. simpl. now rewrite app_nil_r. Qed.

Lemma flush_content (chunks : list str) (buf : str) :
  content (if truthy buf then chunks ++ [buf] else chunks)
  = content chunks ++ non_space buf.
Proof.
  destruct buf; simpl; [now rewrite app_nil_r | apply content_snoc].
Qed.

Lemma pack_sentences_content (sentences chunks : list str) (buf : str) :
  content (fst (pack_sentences max_length sentences chunks buf))
  ++ non_space (snd (pack_sentences max_length sentences chunks buf))
  = content chunks ++ non_space buf ++ content sentences.
Proof.
  set (K := content chunks ++ non_space buf ++ content sentences).
  cut (content (fst (pack_sentences max_length sentences chunks buf))
       ++ non_space (snd (pack_sentences max_length sentences chunks buf))
       ++ content [] = K).
  { unfold content at 2. simpl. now rewrite app_nil_r. }
  apply (pack_sentences_rule max_length
           (fun rest chunks buf =>
              content chunks ++ non_space buf ++ content rest = K));
    [ | | | reflexivity].
  - intros sent rest ch bf HI ->. now rewrite content_cons in HI.
  - intros sent rest ch bf HI _ _.
    rewrite non_space_strip, non_space_join_sp, <- app_assoc.
    now rewrite content_cons in HI.
  - intros sent rest ch bf HI _ _.
    rewrite flush_content, <- app_assoc.
    now rewrite content_cons in HI.
Qed.

Lemma add_paragraph_content (chunks : list str) (para : str) :
  content (add_paragraph max_length chunks para)
  = content chunks ++ non_space para.
Proof.
  unfold add_paragraph. destruct (len para <=? max_length).
  - apply content_snoc.
  - pose proof (pack_sentences_content (re_split_sentences para) chunks [])
      as H.
    destruct (pack_sentences _ _ _ _) as [chunks' buf]. simpl in H.
    rewrite flush_content, H. unfold content at 2.
    now rewrite re_split_sentences_content.
Qed.

Lemma first_pass_content (paras : list str) :
  content (first_pass max_length paras) = content paras.
Proof.
  unfold first_pass.
  cut (content (fold_left (add_paragraph max_length) paras []) ++ content []
       = content paras).
  { unfold content at 2. simpl. now rewrite app_nil_r. }
  apply (first_pass_rule max_length
           (fun rest chunks => content chunks ++ content rest = content paras));
    [|reflexivity].
  intros para rest chunks HI.
  rewrite add_paragraph_content, <- app_assoc.
  now rewrite content_cons in HI.
Qed.

Lemma merge_loop_content (chunks merged : list str) (buf : str) :
  content (fst (merge_loop min_length max_length chunks merged buf))
  ++ non_space (snd (merge_loop min_length max_length chunks merged buf))
  = content merged ++ non_space buf ++ content chunks.
Proof.
  set (K := content merged ++ non_space buf ++ content chunks).
  cut (content (fst (merge_loop min_length max_length chunks merged buf))
       ++ non_space (snd (merge_loop min_length max_length chunks merged buf))
       ++ content [] = K).
  { unfold content at 2. simpl. now rewrite app_nil_r. }
  apply (merge_loop_rule max_length min_length
           (fun rest merged buf =>
              content merged ++ non_space buf ++ content rest = K));
    [ | | reflexivity].
  - intros chunk rest mg bf HI _ _.
    rewrite non_space_strip, non_space_join_sp, <- app_assoc.
    now rewrite content_cons in HI.
  - intros chunk rest mg bf HI _.
    rewrite content_snoc, flush_content. simpl. rewrite <- !app_assoc.
    now rewrite content_cons in HI.
Qed.

Lemma merge_pass_content (chunks : list str) :
  content (merge_pass min_length max_length chunks) = content chunks.
Proof.
  unfold merge_pass.
  pose proof (merge_loop_content chunks [] []) as H.
  destruct (merge_loop _ _ _ _ _) as [merged buf]. simpl in H.
  now rewrite flush_content.
Qed.

End ChunksContent.

(** C8.  Concatenating the chunks returned by [split_into_chunks], in
    order, and dropping white space gives exactly the characters of the
    text that are not white space, in their order: chunking inserts,
    loses and reorders nothing but white space. *)
Theorem C8_chunks_preserve_content (text : str) (min_length max_length : Z) :
  non_space (List.concat (split_into_chunks text min_length max_length))
  = non_space text.
Proof.
  unfold split_into_chunks.
  change (content (merge_pass min_length max_length
                     (first_pass max_length (paragraphs text)))
          = non_space text).
  rewrite merge_pass_content, first_pass_content.
  apply paragraphs_content.
Qed.

(** ** The length of the chunks *)

Section ChunksBound.

Variable text : str.
Variables min_length max_length : Z.

Lemma bounded_join (a b : str) :
  len a + len b + 1 <= max_length -> (bounded text max_length) (strip (join_sp a b)).
Proof.
  intros H. left. pose proof (len_strip (join_sp a b)) as H1.
  rewrite len_join_sp in H1. lia.
Qed.

Lemma flush_bounded (chunks : list str) (buf : str) :
  Forall (bounded text max_length) chunks -> (buf_bounded text max_length) buf ->
  Forall (bounded text max_length) (if truthy buf then chunks ++ [buf] else chunks).
Proof.
  intros Hc Hb. destruct (truthy buf) eqn:E; [|exact Hc].
  apply truthy_true in E. apply Forall_app. split; [exact Hc|].
  constructor; [|constructor]. now destruct Hb.
Qed.

Lemma pack_sentences_bounded (para : str) (sentences chunks : list str)
  (buf : str) :
  In para (paragraphs text) -> max_length < len para ->
  incl sentences (re_split_sentences para) ->
  Forall (bounded text max_length) chunks -> (buf_bounded text max_length) buf ->
  Forall (bounded text max_length) (fst (pack_sentences max_length sentences chunks buf))
  /\ (buf_bounded text max_length) (snd (pack_sentences max_length sentences chunks buf)).
Proof.
  intros Hp Hlong Hs Hc Hb.
  cut (incl [] (re_split_sentences para) /\
       Forall (bounded text max_length) (fst (pack_sentences max_length sentences chunks buf)) /\
       (buf_bounded text max_length) (snd (pack_sentences max_length sentences chunks buf)));
    [tauto|].
  apply (pack_sentences_rule max_length
           (fun rest chunks buf =>
              incl rest (re_split_sentences para) /\
              Forall (bounded text max_length) chunks /\ (buf_bounded text max_length) buf));
    [ | | | now auto].
  - intros sent rest ch bf (Hr & Hc' & Hb') _.
    apply incl_cons_inv in Hr. tauto.
  - intros sent rest ch bf (Hr & Hc' & Hb') _ Hle.
    apply incl_cons_inv in Hr. repeat split; try tauto.
    right. now apply bounded_join.
  - intros sent rest ch bf (Hr & Hc' & Hb') _ _.
    apply incl_cons_inv in Hr. destruct Hr as [Hin Hr].
    repeat split; auto using flush_bounded.
    right. destruct (Z_le_gt_dec (len sent) max_length) as [Hle|Hgt].
    + now left.
    + right. exists para. repeat split; auto. lia.
Qed.

Lemma add_paragraph_bounded (chunks : list str) (para : str) :
  In para (paragraphs text) -> Forall (bounded text max_length) chunks ->
  Forall (bounded text max_length) (add_paragraph max_length chunks para).
Proof.
  intros Hp Hc. unfold add_paragraph.
  destruct (Z.leb_spec (len para) max_length) as [Hle|Hgt].
  - apply Forall_app. split; [exact Hc|].
    constructor; [now left | constructor].
  - destruct (pack_sentences_bounded para (re_split_sentences para) chunks [])
      as [H1 H2]; auto using incl_refl.
    + now left.
    + destruct (pack_sentences _ _ _ _) as [chunks' buf]. simpl in *.
      now apply flush_bounded.
Qed.

Lemma first_pass_bounded :
  Forall (bounded text max_length) (first_pass max_length (paragraphs text)).
Proof.
  unfold first_pass.
  apply (first_pass_rule max_length
           (fun rest chunks =>
              incl rest (paragraphs text) /\ Forall (bounded text max_length) chunks)).
  - intros para rest chunks [Hr Hc]. apply incl_cons_inv in Hr.
    split; [tauto | now apply add_paragraph_bounded].
  - split; [apply incl_refl | constructor].
Qed.

Lemma merge_pass_bounded (chunks : list str) :
  Forall (bounded text max_length) chunks ->
  Forall (bounded text max_length) (merge_pass min_length max_length chunks).
Proof.
  intros Hc. unfold merge_pass.
  assert (Forall (bounded text max_length) [] /\
          Forall (bounded text max_length) (fst (merge_loop min_length max_length chunks [] [])) /\
          (buf_bounded text max_length) (snd (merge_loop min_length max_length chunks [] [])))
    as (_ & H1 & H2).
  { apply (merge_loop_rule max_length min_length
             (fun rest merged buf =>
                Forall (bounded text max_length) rest /\ Forall (bounded text max_length) merged /\
                (buf_bounded text max_length) buf)).
    - intros chunk rest mg bf (Hr & Hm & Hb) Hle _.
      inversion Hr; subst. repeat split; auto.
      right. now apply bounded_join.
    - intros chunk rest mg bf (Hr & Hm & Hb) _.
      inversion Hr; subst. repeat split; auto.
      + apply Forall_app. split; [now apply flush_bounded|].
        constructor; [assumption | constructor].
      + now left.
    - repeat split; auto. now left. }
  destruct (merge_loop _ _ _ _ _) as [merged buf]. simpl in *.
  now apply flush_bounded.
Qed.

(** A sentence longer than [max_length] goes through both passes
    unchanged. *)
Variable c : str.
Hypothesis c_nonempty : c <> [].
Hypothesis c_long : max_length < len c.

Lemma flush_keeps (chunks : list str) (buf : str) :
  In c chunks \/ buf = c ->
  In c (if truthy buf then chunks ++ [buf] else chunks).
Proof.
  intros [H|H].
  - destruct (truthy buf); [apply in_or_app|]; auto.
  - subst buf. apply truthy_true in c_nonempty. rewrite c_nonempty.
    apply in_or_app. right. now left.
Qed.

Lemma pack_sentences_keeps (sentences chunks : list str) (buf : str) :
  In c sentences \/ In c chunks \/ buf = c ->
  In c (fst (pack_sentences max_length sentences chunks buf))
  \/ snd (pack_sentences max_length sentences chunks buf) = c.
Proof.
  intros H.
  cut (In c [] \/
       In c (fst (pack_sentences max_length sentences chunks buf)) \/
       snd (pack_sentences max_length sentences chunks buf) = c).
  { intros [[]|H']; exact H'. }
  apply (pack_sentences_rule max_length
           (fun rest chunks buf => In c rest \/ In c chunks \/ buf = c));
    [ | | | exact H].
  - intros sent rest ch bf [[E|HI]|HI] Hs; subst; tauto.
  - intros sent rest ch bf HI _ Hle.
    pose proof (len_nonneg bf). pose proof (len_nonneg sent).
    destruct HI as [[E|HI]|[HI|HI]]; subst; try tauto; lia.
  - intros sent rest ch bf HI _ _.
    destruct HI as [[E|HI]|HI]; subst; auto.
    right. left. now apply flush_keeps.
Qed.

Lemma add_paragraph_keeps (chunks : list str) (para : str) :
  In c chunks \/ (max_length < len para /\ In c (re_split_sentences para)) ->
  In c (add_paragraph max_length chunks para).
Proof.
  intros H. unfold add_paragraph.
  destruct (Z.leb_spec (len para) max_length) as [Hle|Hgt].
  - destruct H as [H|[H _]]; [|lia]. apply in_or_app. now left.
  - pose proof (pack_sentences_keeps (re_split_sentences para) chunks [])
      as Hk.
    destruct (pack_sentences _ _ _ _) as [chunks' buf]. simpl in Hk.
    apply flush_keeps, Hk. tauto.
Qed.

Lemma first_pass_keeps (paras : list str) :
  (exists para,
      In para paras /\ max_length < len para /\
      In c (re_split_sentences para)) ->
  In c (first_pass max_length paras).
Proof.
  intros H. unfold first_pass.
  cut ((exists para,
           In para [] /\ max_length < len para /\
           In c (re_split_sentences para))
       \/ In c (fold_left (add_paragraph max_length) paras [])).
  { intros [(p & [] & _)|H']; exact H'. }
  apply (first_pass_rule max_length
           (fun rest chunks =>
              (exists para,
                  In para rest /\ max_length < len para /\
                  In c (re_split_sentences para))
              \/ In c chunks)); [|now left].
  intros para rest chunks [(p & [E|Hin] & Hl & Hs)|HI].
  - subst p. right. apply add_paragraph_keeps. tauto.
  - left. now exists p.
  - right. apply add_paragraph_keeps. tauto.
Qed.

Lemma merge_pass_keeps (chunks : list str) :
  In c chunks -> In c (merge_pass min_length max_length chunks).
Proof.
  intros H. unfold merge_pass.
  assert (In c [] \/
          In c (fst (merge_loop min_length max_length chunks [] [])))
    as [[]|Hk].
  { apply (merge_loop_rule max_length min_length
             (fun rest merged buf => In c rest \/ In c merged));
      [ | | now left].
    - intros chunk rest mg bf [[E|HI]|HI] Hle _; auto.
      subst chunk. pose proof (len_nonneg bf). lia.
    - intros chunk rest mg bf [[E|HI]|HI] _; auto; right; apply in_or_app.
      + subst chunk. right. now left.
      + left. destruct (truthy bf); [apply in_or_app|]; auto. }
  destruct (merge_loop _ _ _ _ _) as [merged buf]. simpl in Hk.
  destruct (truthy buf); [apply in_or_app|]; auto.
Qed.

End ChunksBound.

Lemma two_long_sentences_split : has_split_paragraph two_long_sentences 5.
Proof.
  exists two_long_sentences, (lit "bb.").
  repeat split; vm_compute; auto; discriminate.
Qed.

(** C2, as stated: when the text has a paragraph longer than
    [max_length] with a sentence of length at most [max_length], at most
    one of the chunks is longer than [max_length].  It fails: each
    sentence longer than [max_length] is a chunk of its own. *)
Lemma C2_counterexample :
  ~ (forall text min_length max_length,
        has_split_paragraph text max_length ->
        (List.length
           (filter (fun c => (max_length <? len c)%Z)
              (split_into_chunks text min_length max_length)) <= 1)%nat).
Proof.
  intros H.
  specialize (H two_long_sentences 2 5 two_long_sentences_split).
  vm_compute in H. lia.
Qed.

(** C2, amended.  When the text has a paragraph longer than
    [max_length] with a sentence of length at most [max_length], every
    chunk has length at most [max_length] or is a single sentence longer
    than [max_length] of a paragraph longer than [max_length]; there can
    be several such chunks.  Every such sentence is emitted whole, as a
    chunk equal to it. *)
Theorem C2_chunks_bounded_or_whole_sentence (text : str)
  (min_length max_length : Z) :
  has_split_paragraph text max_length ->
  (forall c, In c (split_into_chunks text min_length max_length) ->
             len c <= max_length \/ oversized_sentence text max_length c)
  /\ (forall c, oversized_sentence text max_length c ->
                In c (split_into_chunks text min_length max_length)).
Proof.
  intros _. unfold split_into_chunks. split.
  - apply Forall_forall.
    apply (merge_pass_bounded text), first_pass_bounded.
  - intros c (para & Hp & Hlong & Hs & Hc).
    assert (c <> []) as Hne.
    { pose proof (paragraphs_good text) as Hg.
      rewrite Forall_forall in Hg. specialize (Hg _ Hp).
      apply re_split_sentences_good in Hg.
      rewrite Forall_forall in Hg. now destruct (Hg _ Hs). }
    apply merge_pass_keeps; auto.
    apply first_pass_keeps; auto.
    now exists para.
Qed.

Lemma C2_witness :
  (forall c, In c (split_into_chunks two_long_sentences 2 5) ->
             len c <= 5 \/ oversized_sentence two_long_sentences 5 c)
  /\ (forall c, oversized_sentence two_long_sentences 5 c ->
                In c (split_into_chunks two_long_sentences 2 5)).
Proof.
  apply (C2_chunks_bounded_or_whole_sentence two_long_sentences 2 5).
  exists two_long_sentences, (lit "bb.").
  repeat split; vm_compute; auto; discriminate.
Defined.

Lemma C10_witness : lit "bb." <> [] /\ strip (lit "bb.") = lit "bb.".
Proof.
  apply (C10_chunks_nonempty_trimmed two_long_sentences 2 5).
  vm_compute. auto.
Defined.

(** ** The second pass *)

Section MergeCount.

Variables min_length max_length : Z.

(** The second pass returns at most as many chunks as it is given. *)
Lemma merge_pass_count (chunks : list str) :
  (List.length (merge_pass min_length max_length chunks)
   <= List.length chunks)%nat.
Proof.
  unfold merge_pass.
  assert ((List.length (fst (merge_loop min_length max_length chunks [] []))
           + pending_chunk (snd (merge_loop min_length max_length chunks [] []))
           + List.length (@nil str) <= List.length chunks)%nat) as H.
  { apply (merge_loop_rule max_length min_length
             (fun rest merged buf =>
                (List.length merged + pending_chunk buf + List.length rest
                 <= List.length chunks)%nat)).
    - intros chunk rest mg bf HI _ _. simpl in HI.
      unfold pending_chunk in *.
      destruct (truthy (strip (join_sp bf chunk))), (truthy bf); lia.
    - intros chunk rest mg bf HI _. simpl in HI.
      unfold pending_chunk in *. rewrite length_app. simpl.
      destruct (truthy bf); [rewrite length_app; simpl|]; lia.
    - simpl. lia. }
  destruct (merge_loop _ _ _ _ _) as [merged buf]. simpl in H.
  unfold pending_chunk in H.
  destruct (truthy buf); [rewrite length_app; simpl|]; lia.
Qed.

(** Lines 75-79: a chunk that is not merged is appended to [merged] at
    once, after the buffer, and the buffer is left empty. *)
Lemma merge_loop_no_merge (chunk buf : str) (rest merged : list str) :
  (len buf + len chunk + 1 <=? max_length)
  && ((len buf <? min_length) || (len chunk <? min_length)) = false ->
  merge_loop min_length max_length (chunk :: rest) merged buf
  = merge_loop min_length max_length rest
      ((if truthy buf then merged ++ [buf] else merged) ++ [chunk]) [].
Proof. intros H. simpl. now rewrite H. Qed.

End MergeCount.

(** C1.  With [min_length = 5] and [max_length = 10] the second pass
    returns the three paragraphs of [small_neighbours] as they are: the
    count does not grow, but the adjacent chunks [bb] and [cc] are both
    shorter than [min_length] although joined with a space they have
    5 characters, within [max_length].  The chunk [bb], which did not
    fit the buffer, was not kept as the new buffer. *)
Theorem C1_small_neighbours_not_merged :
  first_pass 10 (paragraphs small_neighbours)
  = [lit "aaaaaaaa"; lit "bb"; lit "cc"]
  /\ split_into_chunks small_neighbours 5 10
     = [lit "aaaaaaaa"; lit "bb"; lit "cc"]
  /\ len (lit "bb") < 5 /\ len (lit "cc") < 5
  /\ len (join_sp (lit "bb") (lit "cc")) <= 10.
Proof. vm_compute. repeat split; discriminate. Qed.

(** ** Question generation *)

Section FirstLongest.

Lemma max_by_len_from_spec (r : list str) :
  forall best pre mid,
    Forall (fun y => len y < len best) pre ->
    Forall (fun y => len y <= len best) mid ->
    first_longest (max_by_len_from best r) (pre ++ best :: mid ++ r).
Proof.
  induction r as [|x r IH]; intros best pre mid Hpre Hmid; simpl.
  - exists pre, mid. rewrite app_nil_r. auto.
  - destruct (Z.ltb_spec (len best) (len x)) as [Hlt|Hge].
    + replace (pre ++ best :: mid ++ x :: r)
        with ((pre ++ best :: mid) ++ x :: [] ++ r)
        by (rewrite <- app_assoc; reflexivity).
      apply IH; [|constructor].
      apply Forall_app. split.
      * eapply Forall_impl; [|exact Hpre]. simpl. intros; lia.
      * constructor; [exact Hlt|].
        eapply Forall_impl; [|exact Hmid]. simpl. intros; lia.
    + replace (pre ++ best :: mid ++ x :: r)
        with (pre ++ best :: (mid ++ [x]) ++ r)
        by (rewrite <- (app_assoc mid); reflexivity).
      apply IH; [exact Hpre|].
      apply Forall_app. split; [exact Hmid|]. constructor; [lia | constructor].
Qed.

Lemma max_len_first_longest (x : str) (r : list str) :
  first_longest (max_len x r) (x :: r).
Proof.
  unfold max_len. apply (max_by_len_from_spec r x [] []); constructor.
Qed.

Lemma first_longest_unique (l : list str) (x y : str) :
  first_longest x l -> first_longest y l -> x = y.
Proof.
  intros (l1 & l2 & E & H1 & H2) (k1 & k2 & E' & K1 & K2). subst l.
  revert k1 E' K1. induction l1 as [|a l1 IH]; intros k1 E' K1.
  - destruct k1 as [|b k1]; simpl in E'; inversion E'; subst; auto.
    inversion K1; subst.
    assert (In y (k1 ++ y :: k2)) as Hin by (apply in_or_app; right; now left).
    rewrite Forall_forall in H2. specialize (H2 _ Hin). lia.
  - destruct k1 as [|b k1]; simpl in E'; inversion E'; subst.
    + inversion H1; subst.
      assert (In x (l1 ++ x :: l2)) as Hin by (apply in_or_app; right; now left).
      rewrite Forall_forall in K2. specialize (K2 _ Hin). lia.
    + inversion H1; inversion K1; subst. eapply IH; eauto.
Qed.

End FirstLongest.

Section QuestionGeneration.

Variable chunk : str.

Lemma sentences_of_stripped (s : str) : In s (sentences_of chunk) -> strip s = s.
Proof.
  unfold sentences_of. intros H. apply in_map_iff in H.
  destruct H as (s' & <- & _). apply strip_idem.
Qed.

Lemma generate_unfold :
  _generate_question_from_chunk chunk
  = match (sentences_of chunk) with
    | [] => None
    | s0 :: srest =>
        match tokens_of (max_len s0 srest) with
        | [] => None
        | w0 :: wrest =>
            Some (question_template (max_len w0 wrest),
                  strip (max_len s0 srest), (word_count chunk))
        end
    end.
Proof. reflexivity. Qed.

End QuestionGeneration.

(** C3.  Question generation returns none exactly when the chunk has no
    non-empty sentence or the longest sentence has no token left once
    the non-alphanumeric characters are removed; otherwise it returns
    the fixed-template question naming the longest token of the longest
    sentence (both the first of greatest length), that sentence, which
    is its own trimmed form, as the answer, and the white-space word
    count of the whole chunk. *)
Theorem C3_generate_question (chunk : str) :
  (_generate_question_from_chunk chunk = None <->
     sentences_of chunk = []
     \/ exists s, first_longest s (sentences_of chunk) /\ tokens_of s = [])
  /\ (forall q a d,
        _generate_question_from_chunk chunk = Some (q, a, d) <->
        exists s k,
          first_longest s (sentences_of chunk)
          /\ first_longest k (tokens_of s)
          /\ q = lit "What does the term '" ++ k
                 ++ lit "' refer to in this context?"
          /\ a = s /\ strip s = s
          /\ d = Z.of_nat (List.length (split chunk))).
Proof.
  rewrite generate_unfold.
  pose proof (sentences_of_stripped chunk) as Hstr.
  destruct (sentences_of chunk) as [|s0 srest] eqn:Es.
  - split.
    + split; auto.
    + intros q a d. split; [discriminate|].
      intros (s & k & (l1 & l2 & E & _) & _). now destruct l1.
  - pose proof (max_len_first_longest s0 srest) as Hs.
    assert (strip (max_len s0 srest) = max_len s0 srest) as Hfix.
    { apply Hstr. destruct Hs as (l1 & l2 & E & _). rewrite E.
      apply in_or_app. right. now left. }
    destruct (tokens_of (max_len s0 srest)) as [|w0 wrest] eqn:Ew.
    + split.
      * split; auto. intros _. right. eauto.
      * intros q a d. split; [discriminate|].
        intros (s & k & Hs' & (l1 & l2 & E & _) & _).
        rewrite (first_longest_unique _ _ _ Hs' Hs), Ew in E.
        now destruct l1.
    + pose proof (max_len_first_longest w0 wrest) as Hk.
      split.
      * split; [discriminate|].
        intros [E|(s & Hs' & E)]; [discriminate|].
        rewrite (first_longest_unique _ _ _ Hs' Hs), Ew in E. discriminate.
      * intros q a d. split.
        -- intros E. inversion E; subst.
           exists (max_len s0 srest), (max_len w0 wrest).
           rewrite Ew. repeat split; auto.
        -- intros (s & k & Hs' & Hk' & -> & -> & _ & ->).
           pose proof (first_longest_unique _ _ _ Hs' Hs) as ->.
           rewrite Ew in Hk'.
           pose proof (first_longest_unique _ _ _ Hk' Hk) as ->.
           rewrite Hfix. reflexivity.
Qed.

(** ** The matching blocks of [difflib] *)

Section MatchingBlocks.

Import Difflib.

Variables a b : str.

Lemma j2len_get_bound (j2len : list (Z * Z)) (n j : Z) :
  0 <= n -> vals_le j2len n -> 0 <= j2len_get j2len j <= n.
Proof.
  intros Hn. induction 1 as [|[j' k] r Hk _ IH]; simpl; [lia|].
  destruct (j' =? j); [exact Hk | exact IH].
Qed.

Lemma scan_row_within (alo blo bhi i : Z) (j2len : list (Z * Z))
  (js : list Z) :
  alo <= i -> vals_le j2len (i - alo) ->
  forall newj2len best,
    vals_le newj2len (i + 1 - alo) -> within alo (i + 1) best ->
    vals_le (fst (scan_row blo bhi i j2len js newj2len best)) (i + 1 - alo)
    /\ within alo (i + 1) (snd (scan_row blo bhi i j2len js newj2len best)).
Proof.
  intros Hi Hj. induction js as [|j r IH]; intros newj2len best Hn Hb; simpl.
  - auto.
  - destruct (j <? blo); [now apply IH|].
    destruct (bhi <=? j); [simpl; auto|].
    pose proof (j2len_get_bound j2len (i - alo) (j - 1) ltac:(lia) Hj) as Hk.
    assert (vals_le ((j, j2len_get j2len (j - 1) + 1) :: newj2len)
              (i + 1 - alo)) as Hn'.
    { constructor; [simpl; lia | exact Hn]. }
    destruct (m_size best <? j2len_get j2len (j - 1) + 1).
    + apply IH; [exact Hn'|]. unfold within. simpl. lia.
    + now apply IH.
Qed.

Lemma scan_rows_within (alo blo bhi : Z) (n : nat) :
  forall i j2len best,
    alo <= i -> vals_le j2len (i - alo) -> within alo i best ->
    within alo (i + Z.of_nat n) (scan_rows a b blo bhi n i j2len best).
Proof.
  induction n as [|n IH]; intros i j2len best Hi Hj Hb.
  - simpl. now rewrite Z.add_0_r.
  - cbn [scan_rows].
    destruct (scan_row_within alo blo bhi i j2len (b2j_get b (at_ a i))
                Hi Hj [] best) as [H1 H2].
    + constructor.
    + unfold within in *. lia.
    + replace (i + Z.of_nat (S n)) with ((i + 1) + Z.of_nat n) by lia.
      destruct (scan_row _ _ _ _ _ _ _) as [newj2len best'].
      cbn [fst snd] in H1, H2.
      apply IH; [lia | exact H1 | exact H2].
Qed.

Lemma extend_left_within (alo blo ahi : Z) (n : nat) :
  forall best, within alo ahi best ->
               within alo ahi (extend_left a b alo blo n best).
Proof.
  induction n as [|n IH]; intros best Hb; simpl; [exact Hb|].
  destruct ((alo <? m_a best) && (blo <? m_b best)
            && Ascii.eqb (at_ a (m_a best - 1)) (at_ b (m_b best - 1)))
    eqn:E; [|exact Hb].
  apply andb_prop in E. destruct E as [E _].
  apply andb_prop in E. destruct E as [E _]. apply Z.ltb_lt in E.
  apply IH. unfold within in *. simpl. lia.
Qed.

Lemma extend_right_within (alo ahi bhi : Z) (n : nat) :
  forall best, within alo ahi best ->
               within alo ahi (extend_right a b ahi bhi n best).
Proof.
  induction n as [|n IH]; intros best Hb; simpl; [exact Hb|].
  destruct ((m_a best + m_size best <? ahi)
            && (m_b best + m_size best <? bhi)
            && Ascii.eqb (at_ a (m_a best + m_size best))
                         (at_ b (m_b best + m_size best)))
    eqn:E; [|exact Hb].
  apply andb_prop in E. destruct E as [E _].
  apply andb_prop in E. destruct E as [E _]. apply Z.ltb_lt in E.
  apply IH. unfold within in *. simpl. lia.
Qed.

(** The longest match of a region lies inside the region. *)
Lemma find_longest_match_within (alo ahi blo bhi : Z) :
  alo <= ahi -> within alo ahi (find_longest_match a b alo ahi blo bhi).
Proof.
  intros H. unfold find_longest_match.
  apply extend_right_within, extend_left_within.
  pose proof (scan_rows_within alo blo bhi (Z.to_nat (ahi - alo)) alo []
                {| m_a := alo; m_b := blo; m_size := 0 |}) as Hs.
  replace (alo + Z.of_nat (Z.to_nat (ahi - alo))) with ahi in Hs by lia.
  apply Hs; [lia | constructor |].
  unfold within. simpl. lia.
Qed.

Lemma find_longest_match_empty (alo ahi blo bhi : Z) :
  ahi < alo -> m_size (find_longest_match a b alo ahi blo bhi) = 0.
Proof.
  intros H. unfold find_longest_match.
  replace (Z.to_nat (ahi - alo)) with O by lia. simpl.
  replace (Z.to_nat (alo - alo)) with O by lia. simpl.
  replace (Z.to_nat (ahi - (alo + 0))) with O by lia. reflexivity.
Qed.

Lemma weight_app (q1 q2 : list region) :
  weight (q1 ++ q2) = (weight q1 + weight q2)%nat.
Proof.
  induction q1 as [|[[[alo ahi] blo] bhi] q1 IH]; simpl; [reflexivity|].
  rewrite IH. lia.
Qed.

Lemma weight_rev (q : list region) : weight (rev q) = weight q.
Proof.
  induction q as [|[[[alo ahi] blo] bhi] q IH]; simpl; [reflexivity|].
  rewrite weight_app, IH. simpl. lia.
Qed.

(** With at least [weight queue] iterations the loop ends on an empty
    queue. *)
Lemma blocks_loop_done (fuel : nat) :
  forall queue blocks,
    (weight queue <= fuel)%nat ->
    snd (blocks_loop a b fuel queue blocks) = [].
Proof.
  induction fuel as [|fuel IH]; intros queue blocks Hw.
  - simpl. destruct queue as [|[[[alo ahi] blo] bhi] q]; [reflexivity|].
    simpl in Hw. lia.
  - cbn [blocks_loop].
    destruct (rev queue) as [|[[[alo ahi] blo] bhi] rq] eqn:Er.
    + apply (f_equal (@rev _)) in Er. rewrite rev_involutive in Er.
      now subst queue.
    + assert (weight queue
              = (S (2 * Z.to_nat (ahi - alo)) + weight (rev rq))%nat) as Hq.
      { rewrite <- (weight_rev queue), Er. simpl. now rewrite weight_rev. }
      set (x := find_longest_match a b alo ahi blo bhi).
      destruct (Z.eqb_spec (m_size x) 0) as [Hk|Hk].
      * apply IH. lia.
      * assert (within alo ahi x) as (H1 & H2 & H3).
        { destruct (Z_le_gt_dec alo ahi) as [Hle|Hgt].
          - now apply find_longest_match_within.
          - exfalso. apply Hk. apply find_longest_match_empty. lia. }
        apply IH.
        destruct ((alo <? m_a x) && (blo <? m_b x));
          destruct ((m_a x + m_size x <? ahi) && (m_b x + m_size x <? bhi));
          rewrite ?weight_app; simpl; lia.
Qed.

(** [get_matching_blocks] runs its loop until the queue is empty. *)
Lemma get_matching_blocks_done :
  snd (blocks_loop a b (blocks_fuel a) [(0, len a, 0, len b)] []) = [].
Proof.
  apply blocks_loop_done. unfold blocks_fuel, len. simpl. lia.
Qed.

End MatchingBlocks.

(** ** Grading *)

(** The literal [0.6] is the double nearest to 3/5. *)
Lemma lit_0_6_nearest :
  Float.lit_0_6 = Float.div (Float.of_Z 3) (Float.of_Z 5).
Proof. vm_compute. reflexivity. Qed.

(** Up to a total length of 100 the comparison of the double with
    [0.6] is the comparison of [2 * m / t] with 3/5. *)
Lemma ratio_threshold_small (m t : Z) :
  0 <= m <= t -> 0 < t <= 100 ->
  Float.leb Float.lit_0_6 (_calculate_ratio m t) = (3 * t <=? 10 * m).
Proof.
  intros Hm Ht.
  assert (forallb
            (fun t' =>
               forallb
                 (fun m' => threshold_agrees (Z.of_nat m') (Z.of_nat t'))
                 (seq 0 (S t')))
            (seq 1 100) = true) as H by (vm_compute; reflexivity).
  rewrite forallb_forall in H.
  specialize (H (Z.to_nat t) ltac:(apply in_seq; lia)).
  rewrite forallb_forall in H.
  specialize (H (Z.to_nat m) ltac:(apply in_seq; lia)).
  rewrite !Z2Nat.id in H by lia.
  now apply Bool.eqb_prop in H.
Qed.

(** C4.  Grading trims and lowercases both strings; it is incorrect
    when one of the normalized strings is empty; otherwise it is correct
    exactly when the ratio [2.0 * M / T] of the sequence matcher on the
    normalized strings, [M] the matched characters and [T] the sum of the
    two lengths, is at least [0.6] (in double precision, as the program
    computes it).  So ["Paris"] against ["Paris"] is correct, [""]
    against ["Paris"] and ["xyz"] against ["abc"] are incorrect, and
    ["Pariss"] against ["Paris"] is correct. *)
Theorem C4_check_answer_grading :
  (forall user correct,
      let user_norm := lower (strip user) in
      let correct_norm := lower (strip correct) in
      (user_norm = [] \/ correct_norm = [] ->
       _check_answer user correct = false)
      /\ (user_norm <> [] -> correct_norm <> [] ->
          (_check_answer user correct = true <->
           Float.leb Float.lit_0_6
             (Float.div
                (Float.mul (Float.of_Z 2)
                   (Float.of_Z (Difflib.matches user_norm correct_norm)))
                (Float.of_Z (len user_norm + len correct_norm)))
           = true)))
  /\ _check_answer (lit "Paris") (lit "Paris") = true
  /\ _check_answer (lit "") (lit "Paris") = false
  /\ _check_answer (lit "xyz") (lit "abc") = false
  /\ _check_answer (lit "Pariss") (lit "Paris") = true.
Proof.
  split; [|vm_compute; auto].
  intros user correct. cbv zeta. unfold _check_answer.
  generalize (lower (strip user)) (lower (strip correct)).
  intros user_norm correct_norm. split.
  - intros [E|E]; rewrite E; simpl; [|rewrite orb_true_r]; reflexivity.
  - intros Hu Hc.
    apply truthy_true in Hu as Hu'. apply truthy_true in Hc as Hc'.
    rewrite Hu', Hc'. simpl. unfold ratio, _calculate_ratio.
    apply truthy_len in Hu'. apply truthy_len in Hc'.
    destruct (Z.eqb_spec (len user_norm + len correct_norm) 0) as [E|E];
      [lia|]. simpl. reflexivity.
Qed.

Lemma C4_witness :
  _check_answer (lit "  PARISS ") (lit "Paris") = true <->
  Float.leb Float.lit_0_6
    (Float.div
       (Float.mul (Float.of_Z 2)
          (Float.of_Z (Difflib.matches (lower (strip (lit "  PARISS ")))
                         (lower (strip (lit "Paris"))))))
       (Float.of_Z (len (lower (strip (lit "  PARISS ")))
                    + len (lower (strip (lit "Paris"))))))
  = true.
Proof.
  apply (proj2 (proj1 C4_check_answer_grading (lit "  PARISS ") (lit "Paris")));
    vm_compute; discriminate.
Defined.

(** ** The quiz loop *)

Section Buckets.

Lemma three_levels_inv (s : QuizSession) :
  three_levels s ->
  exists q0 q1 q2, questions_by_level s = [(0, q0); (1, q1); (2, q2)].
Proof.
  unfold three_levels, keys. intros H.
  destruct (questions_by_level s) as [|[k0 q0] [|[k1 q1] [|[k2 q2] [|p r]]]];
    simpl in H; try discriminate.
  inversion H; subst. now exists q0, q1, q2.
Qed.

Lemma keys_dict_set {V} (d : dict V) (k : Z) (v : V) :
  In k (keys d) -> keys (dict_set d k v) = keys d.
Proof.
  unfold keys. induction d as [|[k' v'] r IH]; simpl; [tauto|].
  intros [E|Hin].
  - subst. now rewrite Z.eqb_refl.
  - destruct (k' =? k); simpl; [reflexivity|]. now rewrite IH.
Qed.

Lemma dict_get_in_keys {V} (d : dict V) (k : Z) (v : V) :
  dict_get d k = Some v -> In k (keys d).
Proof.
  unfold keys. induction d as [|[k' v'] r IH]; simpl; [discriminate|].
  destruct (Z.eqb_spec k' k); auto.
Qed.

Lemma remaining_levels_in_keys (s : QuizSession) (l : Z) :
  In l (remaining_levels_of s) -> In l (keys (questions_by_level s)).
Proof.
  unfold remaining_levels_of, keys. intros H. apply in_map_iff in H.
  destruct H as (p & <- & Hp). apply filter_In in Hp.
  apply in_map. tauto.
Qed.

Lemma max_by_key_in (key : Z -> Z) (r : list Z) :
  forall best, In (max_by_key key best r) (best :: r).
Proof.
  induction r as [|x r IH]; intros best; simpl; [auto|].
  destruct (key best <? key x).
  - right. apply IH.
  - destruct (IH best) as [E|Hin]; auto.
Qed.

End Buckets.

Section Reselect.

Variable quiet : bool.
Variable w : world.

Hypothesis levels : three_levels (self w).
Hypothesis empty_bucket :
  dict_get (questions_by_level (self w)) (current_level (self w)) = Some [].

Lemma reselect_level_empty :
  reselect_level quiet w
  = match remaining_levels_of (self w) with
    | [] =>
        (Ok Break,
         snd (unless quiet (print (lit "No more questions available.")) w))
    | l0 :: ls =>
        (Ok Continue,
         mkWorld (set_level (self w) (max_by_key (bucket_len (self w)) l0 ls)) (tty w))
    end.
Proof.
  cbv [reselect_level bucket bind get_self ret raise put_self].
  rewrite empty_bucket.
  destruct (remaining_levels_of (self w)) as [|l0 ls]; [|reflexivity].
  destruct quiet; reflexivity.
Qed.

Lemma reselect_level_choice :
  (forall l, In l [0; 1; 2] -> bucket_len (self w) l = 0) /\
  remaining_levels_of (self w) = []
  \/ exists l0 ls,
       remaining_levels_of (self w) = l0 :: ls
       /\ let l := max_by_key (bucket_len (self w)) l0 ls in
          In l [0; 1; 2] /\ 0 < bucket_len (self w) l
          /\ (forall l', In l' [0; 1; 2] -> bucket_len (self w) l' <= bucket_len (self w) l)
          /\ (forall l', In l' [0; 1; 2] ->
                         bucket_len (self w) l' = bucket_len (self w) l -> l <= l').
Proof.
  destruct (three_levels_inv (self w) levels) as (q0 & q1 & q2 & E).
  assert (bucket_len (self w) 0 = Z.of_nat (List.length q0)) as K0
      by (unfold bucket_len; rewrite E; reflexivity).
  assert (bucket_len (self w) 1 = Z.of_nat (List.length q1)) as K1
      by (unfold bucket_len; rewrite E; reflexivity).
  assert (bucket_len (self w) 2 = Z.of_nat (List.length q2)) as K2
      by (unfold bucket_len; rewrite E; reflexivity).
  unfold remaining_levels_of. rewrite E.
  revert K0 K1 K2. generalize (bucket_len (self w)). intros key K0 K1 K2.
  assert (forall (q : Question) l, 0 < Z.of_nat (List.length (q :: l))) as Hpos
      by (intros; simpl; lia).
  destruct q0 as [|x0 q0]; [|specialize (Hpos x0 q0) as P0];
    destruct q1 as [|x1 q1]; [|specialize (Hpos x1 q1) as P1| |specialize (Hpos x1 q1) as P1];
    (destruct q2 as [|x2 q2]; [|specialize (Hpos x2 q2) as P2]);
    cbn [filter map snd fst List.length Z.of_nat] in *;
    [ left; split; [intros l [<-|[<-|[<-|[]]]]; assumption | reflexivity]
    | right; eexists; eexists; (split; [reflexivity|]) .. ];
    cbn [max_by_key];
    repeat match goal with
           | |- context [?x <? ?y] => destruct (Z.ltb_spec x y)
           end;
    cbv zeta;
    (split; [simpl; tauto|]);
    (split; [lia|]);
    (split; intros l' [<-|[<-|[<-|[]]]]; lia).
Qed.

End Reselect.

(** ** The summary *)

Section Summary.

(** The summary never raises: the division is made only when the
    divisor is not 0. *)
Lemma print_summary_ok (num_questions : Z) (w : world) :
  _print_summary num_questions w
  = (Ok tt, printing (summary_lines (self w)) w).
Proof.
  unfold printing, summary_lines, accuracy_line.
  cbv [_print_summary bind get_self print ret true_div raise tty self
       pending printed].
  destruct w as [s [pend out]].
  cbv [self tty pending printed].
  destruct (correct_count s + incorrect_count s =? 0) eqn:E; cbn [negb].
  - rewrite <- !app_assoc. reflexivity.
  - rewrite <- !app_assoc. reflexivity.
Qed.

(** [tenths] rounds ten times the value [m * 2^e] to a nearest
    integer. *)
Lemma tenths_nearest (m : positive) (e : Z) :
  e < 0 ->
  Z.abs (2 * (10 * Z.pos m) - 2 * tenths m e * 2 ^ (- e)) <= 2 ^ (- e).
Proof.
  intros He. unfold tenths.
  destruct (Z.leb_spec 0 e) as [H|_]; [lia|].
  set (d := 2 ^ (- e)). set (n := 10 * Z.pos m).
  assert (0 < d) as Hd by (apply Z.pow_pos_nonneg; lia).
  pose proof (Z.div_mod n d ltac:(lia)) as Hn.
  pose proof (Z.mod_pos_bound n d Hd) as Hr.
  destruct (Z.ltb_spec d (2 * (n mod d))); [nia|].
  destruct (Z.eqb_spec d (2 * (n mod d))); [|nia].
  destruct (Z.even (n / d)); nia.
Qed.

End Summary.

(** C7.  The summary reports [correct_count + incorrect_count] as the
    number of questions attempted and never raises; the accuracy
    [100 * correct_count / total_answered], formatted with one decimal,
    is computed and printed exactly when [total_answered] is not 0.
    [ask] prints this summary for the state the loop ends in, whether
    the loop ran all its iterations or stopped early. *)
Theorem C7_summary_total_and_accuracy (num_questions : Z) (w : world) :
  let s := self w in
  let total_answered := correct_count s + incorrect_count s in
  (exists accuracy_lines,
      _print_summary num_questions w
      = (Ok tt,
         printing
           ([NL :: lit "Quiz complete!";
             lit "Questions attempted: " ++ str_of_Z total_answered;
             lit "Correct answers:   " ++ str_of_Z (correct_count s);
             lit "Incorrect answers: " ++ str_of_Z (incorrect_count s)]
            ++ accuracy_lines) w)
      /\ (total_answered = 0 -> accuracy_lines = [])
      /\ (total_answered <> 0 ->
          accuracy_lines
          = [lit "Accuracy:         "
             ++ format_1f
                  (Float.int_div (100 * correct_count s) total_answered)
             ++ lit "%"]))
  /\ (forall w1,
         for_range (ask_body num_questions false)
           (Z.to_nat num_questions) 0 w = (Ok tt, w1) ->
         ask num_questions false w
         = (Ok tt, printing (summary_lines (self w1)) w1)).
Proof.
  cbv zeta. split.
  - exists (if correct_count (self w) + incorrect_count (self w) =? 0
            then []
            else [accuracy_line (correct_count (self w))
                    (correct_count (self w) + incorrect_count (self w))]).
    split; [apply print_summary_ok|].
    split; intros H.
    + now rewrite H.
    + apply Z.eqb_neq in H. now rewrite H.
  - intros w1 H. unfold ask, bind. rewrite H. unfold unless.
    apply print_summary_ok.
Qed.

Lemma C7_witness :
  printed (tty (snd (_print_summary 5 two_right_one_wrong)))
  = [NL :: lit "Quiz complete!";
     lit "Questions attempted: 3";
     lit "Correct answers:   2";
     lit "Incorrect answers: 1";
     lit "Accuracy:         66.7%"].
Proof.
  destruct (proj1 (C7_summary_total_and_accuracy 5 two_right_one_wrong))
    as (acc & E & _ & H).
  rewrite E, H; [reflexivity | vm_compute; discriminate].
Defined.

(** With counters beyond 2^53 the quotient is still the exact one,
    rounded once: 6.25 is printed as 6.2. *)
Example summary_large_counters :
  accuracy_line (2 ^ 53 + 1) (16 * (2 ^ 53 + 1)) = lit "Accuracy:         6.2%".
Proof. vm_compute. reflexivity. Qed.

(** ** The choice of another level *)

(** C5.  When the bucket at [current_level] is empty: if every bucket
    is empty the iteration breaks out of the loop and [ask] ends
    without an error, leaving the session as it was; otherwise
    [current_level] becomes a level whose bucket is not empty and holds
    the most questions, the lowest such level when several hold as
    many. *)
Theorem C5_reselect_level (quiet : bool) (w : world) :
  three_levels (self w) ->
  dict_get (questions_by_level (self w)) (current_level (self w)) = Some [] ->
  ((forall l, In l [0; 1; 2] -> bucket_len (self w) l = 0) ->
   fst (reselect_level quiet w) = Ok Break
   /\ self (snd (reselect_level quiet w)) = self w
   /\ forall num_questions,
        fst (ask num_questions quiet w) = Ok tt
        /\ self (snd (ask num_questions quiet w)) = self w)
  /\ ((exists l, In l [0; 1; 2] /\ bucket_len (self w) l <> 0) ->
      exists l,
        reselect_level quiet w
        = (Ok Continue, mkWorld (set_level (self w) l) (tty w))
        /\ In l [0; 1; 2] /\ 0 < bucket_len (self w) l
        /\ (forall l', In l' [0; 1; 2] ->
                       bucket_len (self w) l' <= bucket_len (self w) l)
        /\ (forall l', In l' [0; 1; 2] ->
                       bucket_len (self w) l' = bucket_len (self w) l ->
                       l <= l')).
Proof.
  intros Hlev Hempty.
  pose proof (reselect_level_empty quiet w Hempty) as Hre.
  destruct (reselect_level_choice w Hlev)
    as [[Hzero Hrem]|(l0 & ls & Hrem & Hin & Hpos & Hmax & Htie)];
    rewrite Hrem in Hre.
  - split.
    + intros _.
      assert (self (snd (unless quiet
                           (print (lit "No more questions available.")) w))
              = self w) as Hself by (destruct quiet; reflexivity).
      rewrite Hre. repeat split; auto.
      * unfold ask, bind.
        destruct (Z.to_nat num_questions) as [|n]; simpl.
        -- destruct quiet; simpl; [reflexivity|].
           now rewrite print_summary_ok.
        -- unfold ask_body, bind. rewrite Hre. simpl.
           destruct quiet; simpl; [reflexivity|].
           now rewrite print_summary_ok.
      * unfold ask, bind.
        destruct (Z.to_nat num_questions) as [|n]; simpl.
        -- destruct quiet; simpl; [reflexivity|].
           now rewrite print_summary_ok.
        -- unfold ask_body, bind. rewrite Hre. simpl.
           destruct quiet; simpl; [reflexivity|].
           now rewrite print_summary_ok.
    + intros (l & Hl & Hne). now specialize (Hzero l Hl).
  - split.
    + intros Hzero. specialize (Hzero _ Hin). cbv zeta in Hpos. lia.
    + intros _. eexists. split; [exact Hre|]. auto.
Qed.

Lemma C5_witness :
  exists l,
    reselect_level false tie_world
    = (Ok Continue, mkWorld (set_level (self tie_world) l) (tty tie_world))
    /\ In l [0; 1; 2] /\ 0 < bucket_len (self tie_world) l
    /\ (forall l', In l' [0; 1; 2] ->
                   bucket_len (self tie_world) l'
                   <= bucket_len (self tie_world) l)
    /\ (forall l', In l' [0; 1; 2] ->
                   bucket_len (self tie_world) l'
                   = bucket_len (self tie_world) l -> l <= l').
Proof.
  apply (proj2 (C5_reselect_level false tie_world eq_refl eq_refl)).
  exists 0. split; [now left | vm_compute; discriminate].
Defined.

Example tie_world_picks_level_0 :
  current_level (self (snd (reselect_level false tie_world))) = 0.
Proof. reflexivity. Qed.

(** ** The level stays between 0 and 2 *)

Section LevelInvariant.

Lemma difficulty_range (word_count : Z) :
  In (_difficulty_from_length word_count) [0; 1; 2].
Proof.
  unfold _difficulty_from_length.
  destruct (word_count <=? 40); [simpl; auto|].
  destruct (word_count <=? 100); simpl; auto.
Qed.

Lemma dict_get_some {V} (d : dict V) (k : Z) :
  In k (keys d) -> exists v, dict_get d k = Some v.
Proof.
  unfold keys. induction d as [|[k' v'] r IH]; simpl; [tauto|].
  intros [E|Hin].
  - subst. rewrite Z.eqb_refl. eauto.
  - destruct (k' =? k); eauto.
Qed.

Lemma add_chunk_keys (topic : option str) (d : dict (list Question))
  (chunk : str) :
  keys d = [0; 1; 2] ->
  exists d', add_chunk topic d chunk = Ok d' /\ keys d' = [0; 1; 2].
Proof.
  intros Hk. unfold add_chunk.
  destruct (match topic with
            | Some t => truthy t && negb (contains (lower t) (lower chunk))
            | None => false
            end); [eauto|].
  destruct (_generate_question_from_chunk chunk) as [[[q a] n]|]; [|eauto].
  pose proof (difficulty_range n) as Hin. rewrite <- Hk in Hin.
  destruct (dict_get_some d _ Hin) as (qs & E). rewrite E.
  eexists. split; [reflexivity|]. now rewrite keys_dict_set.
Qed.

Lemma add_chunks_keys (topic : option str) (chunks : list str) :
  forall d,
    keys d = [0; 1; 2] ->
    exists d', add_chunks topic d chunks = Ok d' /\ keys d' = [0; 1; 2].
Proof.
  induction chunks as [|c r IH]; intros d Hk; simpl; [eauto|].
  destruct (add_chunk_keys topic d c Hk) as (d1 & E & Hk1). rewrite E.
  now apply IH.
Qed.

(** [__init__] succeeds and leaves the level at 1 and the counters
    at 0. *)
Lemma init_ok (shuffle : Z -> list Question -> list Question)
  (notes : str) (tp : option str) (mn mx : Z) :
  exists s,
    QuizSession_init shuffle notes tp mn mx = Ok s
    /\ three_levels s /\ current_level s = 1
    /\ correct_count s = 0 /\ incorrect_count s = 0.
Proof.
  unfold QuizSession_init, _prepare_questions.
  cbn [questions_by_level topic raw_notes min_chunk_length max_chunk_length].
  destruct (add_chunks_keys tp (split_into_chunks notes mn mx)
              [(0, []); (1, []); (2, [])] eq_refl) as (d & E & Hk).
  rewrite E. eexists. split; [reflexivity|].
  repeat split. unfold three_levels, keys. cbn [questions_by_level set_buckets].
  rewrite map_map. exact Hk.
Qed.

Lemma reselect_level_ok (quiet : bool) (w : world) :
  level_ok (self w) -> level_ok (self (snd (reselect_level quiet w))).
Proof.
  intros [Hk Hl]. cbv [reselect_level bucket bind get_self ret raise put_self].
  destruct (dict_get _ _) as [[|q qs]|]; cbn [snd self]; try (now split).
  destruct (remaining_levels_of (self w)) as [|l0 ls] eqn:Er.
  - destruct quiet; now split.
  - cbn [snd self]. split; [exact Hk|]. cbn [current_level set_level].
    pose proof (max_by_key_in (bucket_len (self w)) ls l0) as Hin.
    rewrite <- Er in Hin. apply remaining_levels_in_keys in Hin.
    rewrite Hk in Hin. simpl in Hin. lia.
Qed.

Lemma pop_question_ok (w : world) :
  level_ok (self w) -> level_ok (self (snd (pop_question w))).
Proof.
  intros [Hk Hl]. cbv [pop_question bucket bind get_self ret raise put_self].
  destruct (dict_get _ _) as [qs|] eqn:E; cbn [snd self]; [|now split].
  destruct (rev qs) as [|q rqs]; cbn [snd self]; [now split|].
  split; [|exact Hl]. unfold three_levels.
  cbn [questions_by_level set_buckets].
  rewrite keys_dict_set; [exact Hk | now apply dict_get_in_keys in E].
Qed.

Lemma grade_and_adapt_level (quiet : bool) (q : Question) (user_answer : str)
  (w : world) :
  let w' := snd (grade_and_adapt quiet q user_answer w) in
  current_level (self w')
  = adapted (_check_answer user_answer (answer q)) (current_level (self w))
  /\ questions_by_level (self w') = questions_by_level (self w)
  /\ fst (grade_and_adapt quiet q user_answer w) = Ok tt.
Proof.
  unfold grade_and_adapt, adapted.
  destruct (_check_answer user_answer (answer q));
    cbv [bind get_self ret put_self unless print]; destruct quiet;
    cbn [fst snd self tty current_level set_correct set_incorrect];
    [ destruct (current_level (self w) <? 2)
    | destruct (current_level (self w) <? 2)
    | destruct (0 <? current_level (self w))
    | destruct (0 <? current_level (self w)) ];
    repeat split.
Qed.

Lemma grade_and_adapt_ok (quiet : bool) (q : Question) (user_answer : str)
  (w : world) :
  level_ok (self w) ->
  level_ok (self (snd (grade_and_adapt quiet q user_answer w))).
Proof.
  intros [Hk Hl].
  destruct (grade_and_adapt_level quiet q user_answer w) as (E1 & E2 & _).
  split.
  - unfold three_levels. now rewrite E2.
  - rewrite E1. unfold adapted.
    destruct (_check_answer _ _);
      [destruct (Z.ltb_spec (current_level (self w)) 2)
      |destruct (Z.ltb_spec 0 (current_level (self w)))]; lia.
Qed.

Lemma unless_print_self (quiet : bool) (line : str) (w : world) :
  unless quiet (print line) w
  = (Ok tt, if quiet then w else printing [line] w).
Proof. destruct quiet; reflexivity. Qed.

Lemma ask_body_ok (num_questions : Z) (quiet : bool) (i : Z) (w : world) :
  level_ok (self w) ->
  level_ok (self (snd (ask_body num_questions quiet i w))).
Proof.
  intros H. apply (reselect_level_ok quiet) in H.
  unfold ask_body. unfold bind at 1.
  destruct (reselect_level quiet w) as [[[|]|e] w1]; cbn [snd] in *;
    try exact H.
  apply pop_question_ok in H. unfold bind at 1.
  destruct (pop_question w1) as [[q|e] w2]; cbn [snd] in *; try exact H.
  assert (forall w3 : world,
             level_ok (self w3) ->
             level_ok
               (self (snd ((user_answer <- input (lit "Your answer: ") ;;
                            grade_and_adapt quiet q user_answer ;;;
                            ret Continue) w3)))) as Hrest.
  { intros w3 H3. cbv [bind input].
    destruct (pending (tty w3)) as [|l r]; cbn [snd self]; [exact H3|].
    match goal with
    | |- context [grade_and_adapt quiet q l ?w4] =>
        pose proof (grade_and_adapt_ok quiet q l w4 H3) as H4;
        destruct (grade_and_adapt quiet q l w4) as [[[]|e] w5]
    end; exact H4. }
  unfold bind at 1. destruct quiet; cbn [unless].
  - cbv [ret]. now apply Hrest.
  - cbv [bind get_self print]. now apply Hrest.
Qed.

Lemma for_range_ok (body : Z -> M ctl) (n : nat) :
  (forall i w, level_ok (self w) -> level_ok (self (snd (body i w)))) ->
  forall i w,
    level_ok (self w) -> level_ok (self (snd (for_range body n i w))).
Proof.
  intros Hbody. induction n as [|n IH]; intros i w H; simpl; [exact H|].
  unfold bind. specialize (Hbody i w H).
  destruct (body i w) as [[[|]|e] w1]; cbn [snd] in *; auto.
Qed.

Lemma ask_ok (num_questions : Z) (quiet : bool) (w : world) :
  level_ok (self w) -> level_ok (self (snd (ask num_questions quiet w))).
Proof.
  intros H. unfold ask, bind.
  pose proof (for_range_ok (ask_body num_questions quiet)
                (Z.to_nat num_questions)
                (fun i w => ask_body_ok num_questions quiet i w) 0 w H) as H1.
  destruct (for_range _ _ _ _) as [[[]|e] w1]; cbn [snd] in *; [|exact H1].
  destruct quiet; cbn [unless]; [exact H1|].
  now rewrite print_summary_ok.
Qed.

End LevelInvariant.

Lemma reachable_level_ok (w : world) : reachable w -> level_ok (self w).
Proof.
  induction 1 as [shuffle notes tp mn mx s c E| | | | | ];
    auto using reselect_level_ok, pop_question_ok, grade_and_adapt_ok,
      ask_body_ok, ask_ok.
  destruct (init_ok shuffle notes tp mn mx) as (s' & E' & Hk & Hl & _).
  rewrite E in E'. inversion E'; subst s'. split; [exact Hk|].
  cbn [self]. lia.
Qed.

(** C6.  A session starts at level 1, and the level of every state the
    session goes through lies between 0 and 2: grading moves it one up
    after a correct answer only when it is below 2 and one down after
    an incorrect answer only when it is above 0, and reselection leaves
    it or sets it to one of 0, 1, 2.  So from level 1 two correct
    answers in a row lead to level 2 and stay there, and an incorrect
    answer at level 0 stays at level 0. *)
Theorem C6_level_in_range :
  (forall shuffle notes tp mn mx,
      exists s,
        QuizSession_init shuffle notes tp mn mx = Ok s
        /\ current_level s = 1)
  /\ (forall w, reachable w -> 0 <= current_level (self w) <= 2)
  /\ (forall quiet q user_answer w,
         current_level (self (snd (grade_and_adapt quiet q user_answer w)))
         = if _check_answer user_answer (answer q)
           then (if current_level (self w) <? 2
                 then current_level (self w) + 1 else current_level (self w))
           else (if 0 <? current_level (self w)
                 then current_level (self w) - 1 else current_level (self w)))
  /\ (forall quiet w,
         reachable w ->
         In (current_level (self (snd (reselect_level quiet w)))) [0; 1; 2])
  /\ (forall quiet q1 a1 q2 a2 w,
         current_level (self w) = 1 ->
         _check_answer a1 (answer q1) = true ->
         _check_answer a2 (answer q2) = true ->
         let w1 := snd (grade_and_adapt quiet q1 a1 w) in
         let w2 := snd (grade_and_adapt quiet q2 a2 w1) in
         current_level (self w1) = 2 /\ current_level (self w2) = 2)
  /\ (forall quiet q user_answer w,
         current_level (self w) = 0 ->
         _check_answer user_answer (answer q) = false ->
         current_level (self (snd (grade_and_adapt quiet q user_answer w)))
         = 0).
Proof.
  split; [|split; [|split; [|split; [|split]]]].
  - intros shuffle notes tp mn mx.
    destruct (init_ok shuffle notes tp mn mx) as (s & E & _ & Hl & _).
    now exists s.
  - intros w H. now apply reachable_level_ok in H as [_ Hl].
  - intros quiet q user_answer w.
    now destruct (grade_and_adapt_level quiet q user_answer w) as [E _].
  - intros quiet w H. apply (reach_reselect quiet) in H.
    apply reachable_level_ok in H as [_ Hl]. simpl. lia.
  - intros quiet q1 a1 q2 a2 w Hl H1 H2. cbv zeta.
    destruct (grade_and_adapt_level quiet q1 a1 w) as [E1 _].
    destruct (grade_and_adapt_level quiet q2 a2
                (snd (grade_and_adapt quiet q1 a1 w))) as [E2 _].
    cbv zeta in E1, E2. rewrite E2, E1, H1, H2, Hl. simpl. auto.
  - intros quiet q user_answer w Hl H.
    destruct (grade_and_adapt_level quiet q user_answer w) as [E _].
    cbv zeta in E. now rewrite E, H, Hl.
Qed.

Lemma demo_world_reachable : reachable demo_world.
Proof.
  unfold demo_world, demo_session.
  destruct (init_ok (fun _ qs => qs) demo_notes None 10 40) as (s & E & _).
  rewrite E. exact (reach_init _ _ _ _ _ _ _ E).
Qed.

Lemma C6_witness :
  0 <= current_level (self (snd (ask 5 true demo_world))) <= 2.
Proof.
  apply (proj1 (proj2 C6_level_in_range)).
  apply reach_ask. exact demo_world_reachable.
Defined.

Example demo_run :
  let w := snd (ask 5 false demo_world) in
  correct_count (self w) = 1 /\ incorrect_count (self w) = 1
  /\ current_level (self w) = 0.
Proof. vm_compute. auto. Qed.

(** ** The quiet flag *)

Section Quiet.

Lemma same_state_refl (w : world) : same_state w w.
Proof. now split. Qed.

Lemma same_state_trans (w1 w2 w3 : world) :
  same_state w1 w2 -> same_state w2 w3 -> same_state w1 w3.
Proof. intros [H1 H2] [H3 H4]. split; congruence. Qed.

Lemma blind_ret {A} (a : A) : blind (ret a) (ret a).
Proof. intros w1 w2 H. now split. Qed.

Lemma blind_raise {A} (e : exn) : blind (@raise A e) (raise e).
Proof. intros w1 w2 H. now split. Qed.

Lemma blind_bind {A B} (m1 m2 : M A) (k1 k2 : A -> M B) :
  blind m1 m2 -> (forall a, blind (k1 a) (k2 a)) ->
  blind (bind m1 k1) (bind m2 k2).
Proof.
  intros Hm Hk w1 w2 H. unfold bind.
  destruct (Hm w1 w2 H) as [Hr Hs].
  destruct (m1 w1) as [[a1|e1] w1'], (m2 w2) as [[a2|e2] w2'];
    cbn [fst snd] in *; inversion Hr; subst; auto.
  now apply Hk.
Qed.

Lemma blind_get_self : blind get_self get_self.
Proof. intros w1 w2 [H1 H2]. cbv [get_self fst snd]. split; [now f_equal | now split]. Qed.

Lemma blind_put_self (s : QuizSession) : blind (put_self s) (put_self s).
Proof. intros w1 w2 [H1 H2]. now split. Qed.

Lemma blind_input (prompt : str) : blind (input prompt) (input prompt).
Proof.
  intros w1 w2 [H1 H2]. unfold input. rewrite H2.
  destruct (pending (tty w2)); cbn [fst snd]; split; try reflexivity;
    now split.
Qed.

Lemma silent_ret {A} (a : A) : silent (ret a).
Proof. intros w. split; [now exists a | apply same_state_refl]. Qed.

Lemma silent_print (line : str) : silent (print line).
Proof. intros w. split; [now exists tt | now split]. Qed.

Lemma silent_get_self : silent get_self.
Proof. intros w. split; [now exists (self w) | now split]. Qed.

Lemma silent_bind {A B} (m : M A) (k : A -> M B) :
  silent m -> (forall a, silent (k a)) -> silent (bind m k).
Proof.
  intros Hm Hk w. unfold bind. destruct (Hm w) as [[a Ha] Hs].
  destruct (m w) as [[a'|e] w']; cbn [fst snd] in *; [|discriminate].
  destruct (Hk a' w') as [Hb Hs']. split; [exact Hb|].
  now apply (same_state_trans _ w').
Qed.

Lemma silent_print_summary (num_questions : Z) :
  silent (_print_summary num_questions).
Proof.
  intros w. rewrite print_summary_ok. split; [now exists tt | now split].
Qed.

(** What is done only when [quiet] is false does not matter. *)
Lemma blind_unless (m1 m2 : M unit) :
  silent m2 -> blind (unless true m1) (unless false m2).
Proof.
  intros Hm w1 w2 H. cbn [unless]. destruct (Hm w2) as [[[] Ha] Hs].
  rewrite Ha. split; [reflexivity|].
  now apply (same_state_trans _ w2).
Qed.

Lemma blind_bucket (l : Z) : blind (bucket l) (bucket l).
Proof.
  apply blind_bind; [apply blind_get_self|]. intros s.
  destruct (dict_get _ _); [apply blind_ret | apply blind_raise].
Qed.

Lemma blind_reselect_level :
  blind (reselect_level true) (reselect_level false).
Proof.
  apply blind_bind; [apply blind_get_self|]. intros s.
  apply blind_bind; [apply blind_bucket|]. intros [|q qs];
    [|apply blind_ret].
  destruct (remaining_levels_of s) as [|l0 ls].
  - apply blind_bind; [|intros; apply blind_ret].
    apply blind_unless, silent_print.
  - apply blind_bind; [apply blind_put_self | intros; apply blind_ret].
Qed.

Lemma blind_pop_question : blind pop_question pop_question.
Proof.
  apply blind_bind; [apply blind_get_self|]. intros s.
  apply blind_bind; [apply blind_bucket|]. intros qs.
  destruct (rev qs) as [|q rqs]; [apply blind_raise|].
  apply blind_bind; [apply blind_put_self | intros; apply blind_ret].
Qed.

Lemma blind_grade_and_adapt (q : Question) (user_answer : str) :
  blind (grade_and_adapt true q user_answer)
        (grade_and_adapt false q user_answer).
Proof.
  unfold grade_and_adapt. destruct (_check_answer user_answer (answer q)).
  - apply blind_bind; [apply blind_unless, silent_print|]. intros _.
    apply blind_bind; [apply blind_get_self|]. intros s.
    apply blind_bind; [apply blind_put_self|]. intros _.
    apply blind_bind; [apply blind_get_self|]. intros s'.
    destruct (current_level s' <? 2); [apply blind_put_self | apply blind_ret].
  - apply blind_bind; [apply blind_unless, silent_print|]. intros _.
    apply blind_bind; [apply blind_get_self|]. intros s.
    apply blind_bind; [apply blind_put_self|]. intros _.
    apply blind_bind; [apply blind_get_self|]. intros s'.
    destruct (0 <? current_level s'); [apply blind_put_self | apply blind_ret].
Qed.

Lemma blind_ask_body (num_questions i : Z) :
  blind (ask_body num_questions true i) (ask_body num_questions false i).
Proof.
  apply blind_bind; [apply blind_reselect_level|]. intros [|];
    [|apply blind_ret].
  apply blind_bind; [apply blind_pop_question|]. intros q.
  apply blind_bind.
  - apply blind_unless. apply silent_bind; [apply silent_get_self|].
    intros s. apply silent_bind; [apply silent_print|].
    intros _. apply silent_print.
  - intros _. apply blind_bind; [apply blind_input|]. intros user_answer.
    apply blind_bind; [apply blind_grade_and_adapt|].
    intros _. apply blind_ret.
Qed.

Lemma blind_for_range (body1 body2 : Z -> M ctl) (n : nat) :
  (forall i, blind (body1 i) (body2 i)) ->
  forall i, blind (for_range body1 n i) (for_range body2 n i).
Proof.
  intros Hb. induction n as [|n IH]; intros i; simpl; [apply blind_ret|].
  apply blind_bind; [apply Hb|]. intros [|]; [apply IH | apply blind_ret].
Qed.

Lemma blind_ask (num_questions : Z) :
  blind (ask num_questions true) (ask num_questions false).
Proof.
  apply blind_bind.
  - apply blind_for_range. intros i. apply blind_ask_body.
  - intros _. apply blind_unless, silent_print_summary.
Qed.

End Quiet.

(** C9.  The quiet flag changes what is printed and nothing else: from
    any session and any lines of input, [ask] with [quiet] true and
    with [quiet] false ends the same way, with the same counters, the
    same level and the same questions left in the buckets, having read
    the same answers. *)
Theorem C9_quiet_only_affects_output (num_questions : Z) (w : world) :
  let wq := snd (ask num_questions true w) in
  let wl := snd (ask num_questions false w) in
  correct_count (self wq) = correct_count (self wl)
  /\ incorrect_count (self wq) = incorrect_count (self wl)
  /\ current_level (self wq) = current_level (self wl)
  /\ questions_by_level (self wq) = questions_by_level (self wl)
  /\ pending (tty wq) = pending (tty wl)
  /\ fst (ask num_questions true w) = fst (ask num_questions false w).
Proof.
  destruct (blind_ask num_questions w w (same_state_refl w))
    as [Hr [Hs Hp]].
  cbv zeta. rewrite Hs. repeat split; assumption.
Qed.

(** * Further properties of the chunker *)

Section ChunkerEdges.

Variables min_length max_length : Z.

(** With an empty buffer and a bound that no chunk can meet, the loop
    of the second pass appends every chunk as it is. *)
Lemma merge_loop_identity (chunks merged : list str) :
  min_length <= 0 \/ max_length <= 0 ->
  merge_loop min_length max_length chunks merged [] = (merged ++ chunks, []).
Proof.
  intros H. revert merged.
  induction chunks as [|chunk rest IH]; intros merged; cbn [merge_loop].
  - now rewrite app_nil_r.
  - assert ((len [] + len chunk + 1 <=? max_length)
            && ((len [] <? min_length) || (len chunk <? min_length)) = false)
      as E.
    { pose proof (len_nonneg chunk). rewrite len_nil.
      destruct H as [H|H].
      - apply andb_false_iff. right. apply orb_false_iff.
        split; apply Z.ltb_ge; lia.
      - apply andb_false_iff. left. apply Z.leb_gt. lia. }
    rewrite E. cbn [truthy]. rewrite IH, <- app_assoc. reflexivity.
Qed.

Lemma fold_add_paragraph_short (paras : list str) :
  Forall (fun p => len p <= max_length) paras ->
  forall chunks,
    fold_left (add_paragraph max_length) paras chunks = chunks ++ paras.
Proof.
  induction 1 as [|p r Hp _ IH]; intros chunks; simpl.
  - now rewrite app_nil_r.
  - unfold add_paragraph at 2. apply Z.leb_le in Hp. rewrite Hp.
    rewrite IH, <- app_assoc. reflexivity.
Qed.

(** When no sentence fits beside another, the loop over the sentences
    hands every sentence on as a chunk of its own. *)
Lemma pack_sentences_apart (sentences : list str) :
  max_length <= 0 -> Forall good sentences ->
  forall chunks buf,
    fst (pack_sentences max_length sentences chunks buf)
    ++ flushed (snd (pack_sentences max_length sentences chunks buf))
    = chunks ++ flushed buf ++ sentences.
Proof.
  intros Hmax. induction 1 as [|sent rest [Hne _] _ IH]; intros chunks buf.
  - simpl. now rewrite app_nil_r.
  - cbn [pack_sentences]. apply truthy_true in Hne as Ht. rewrite Ht.
    cbn [negb].
    pose proof (len_nonneg buf). pose proof (len_nonneg sent).
    destruct (Z.leb_spec (len buf + len sent + 1) max_length) as [Hle|_];
      [lia|].
    rewrite IH. unfold flushed. rewrite Ht.
    destruct (truthy buf); [rewrite <- app_assoc|]; reflexivity.
Qed.

Lemma fold_add_paragraph_apart (paras : list str) :
  max_length <= 0 -> Forall good paras ->
  forall chunks,
    fold_left (add_paragraph max_length) paras chunks
    = chunks ++ all_sentences paras.
Proof.
  intros Hmax. induction 1 as [|p r Hp _ IH]; intros chunks; simpl.
  - now rewrite app_nil_r.
  - rewrite IH. rewrite app_assoc. f_equal.
    unfold add_paragraph.
    destruct Hp as [Hne Hs].
    assert (0 < len p) as Hpos by now apply truthy_len, truthy_true.
    destruct (Z.leb_spec (len p) max_length) as [Hle|_]; [lia|].
    pose proof (pack_sentences_apart (re_split_sentences p) Hmax
                  (re_split_sentences_good p (conj Hne Hs)) chunks []) as H.
    destruct (pack_sentences _ _ _ _) as [chunks' buf]. cbn [fst snd] in H.
    unfold flushed in H. simpl in H.
    destruct (truthy buf); [exact H | now rewrite app_nil_r in H].
Qed.

End ChunkerEdges.

Lemma chunks_nil_iff (text : str) (min_length max_length : Z) :
  split_into_chunks text min_length max_length = [] <-> non_space text = [].
Proof.
  assert (content (split_into_chunks text min_length max_length)
          = non_space text) as Hc.
  { unfold split_into_chunks.
    rewrite merge_pass_content, first_pass_content.
    apply paragraphs_content. }
  split.
  - intros E. rewrite E in Hc. now rewrite <- Hc.
  - intros E. rewrite E in Hc.
    assert (Forall good (split_into_chunks text min_length max_length)) as Hg.
    { unfold split_into_chunks.
      apply merge_pass_good, first_pass_good, paragraphs_good. }
    destruct (split_into_chunks text min_length max_length) as [|c r];
      [reflexivity|].
    inversion Hg; subst. rewrite content_cons in Hc.
    apply app_eq_nil in Hc. destruct Hc as [Hc _].
    now apply good_content in Hc.
Qed.

(** X1.  [split_into_chunks] returns no chunk exactly when the text has
    no character that is not white space. *)
Theorem X1_no_chunks_iff_blank (text : str) (min_length max_length : Z) :
  split_into_chunks text min_length max_length = [] <-> non_space text = [].
Proof. apply chunks_nil_iff. Qed.

(** X2.  With [min_length <= 0] nothing counts as a small chunk: the
    second pass returns the chunks of the first pass unchanged, and when
    moreover every paragraph has at most [max_length] characters the
    chunks are the paragraphs. *)
Theorem X2_no_merging_without_min_length (text : str)
  (min_length max_length : Z) :
  min_length <= 0 ->
  split_into_chunks text min_length max_length
  = first_pass max_length (paragraphs text)
  /\ (Forall (fun p => len p <= max_length) (paragraphs text) ->
      split_into_chunks text min_length max_length = paragraphs text).
Proof.
  intros Hmin.
  assert (split_into_chunks text min_length max_length
          = first_pass max_length (paragraphs text)) as E.
  { unfold split_into_chunks, merge_pass.
    rewrite merge_loop_identity by auto. reflexivity. }
  split; [exact E|].
  intros Hall. rewrite E. unfold first_pass.
  now rewrite fold_add_paragraph_short.
Qed.

Lemma X2_witness :
  split_into_chunks small_neighbours 0 10
  = first_pass 10 (paragraphs small_neighbours)
  /\ (Forall (fun p => len p <= 10) (paragraphs small_neighbours) ->
      split_into_chunks small_neighbours 0 10 = paragraphs small_neighbours).
Proof.
  apply (X2_no_merging_without_min_length small_neighbours 0 10). lia.
Defined.

(** X3.  With [max_length <= 0] no two sentences fit one chunk and no
    paragraph fits: the chunks are the sentences of the paragraphs, one
    chunk for each sentence, in order. *)
Theorem X3_sentences_without_max_length (text : str)
  (min_length max_length : Z) :
  max_length <= 0 ->
  split_into_chunks text min_length max_length
  = flat_map re_split_sentences (paragraphs text).
Proof.
  intros Hmax. unfold split_into_chunks, merge_pass.
  rewrite merge_loop_identity by auto. cbn [truthy app].
  unfold first_pass.
  rewrite (fold_add_paragraph_apart max_length _ Hmax (paragraphs_good text)).
  reflexivity.
Qed.

Lemma X3_witness :
  split_into_chunks two_long_sentences 2 0
  = flat_map re_split_sentences (paragraphs two_long_sentences).
Proof.
  apply (X3_sentences_without_max_length two_long_sentences 2 0). lia.
Defined.

(** * Further properties of question generation *)

Section GeneratedQuestion.

Lemma infix_refl (s : str) : infix s s.
Proof. exists [], []. now rewrite app_nil_r. Qed.

Lemma infix_trans (p q s : str) : infix p q -> infix q s -> infix p s.
Proof.
  intros (a & b & ->) (c & d & ->). exists (c ++ a), (b ++ d).
  now rewrite <- !app_assoc.
Qed.

Lemma strip_infix (s : str) : infix (strip s) s.
Proof.
  destruct (lstrip_split s) as (t & Ht & _).
  destruct (rstrip_split (lstrip s)) as (t' & Ht' & _).
  exists t, t'. unfold strip. now rewrite <- Ht', <- Ht.
Qed.

(** The pieces of the sentence split are contiguous pieces of the
    string. *)
Lemma split_sentences_infix (s : str) :
  forall in_sep after_end cur pre p,
    In p (split_sentences_from in_sep after_end cur s) ->
    infix p (pre ++ cur ++ s).
Proof.
  induction s as [|c r IH]; intros in_sep after_end cur pre p Hin;
    cbn [split_sentences_from] in Hin.
  - destruct Hin as [<-|[]]. exists pre, []. reflexivity.
  - assert (forall cur', In p (split_sentences_from true false [] r) ->
                         infix p (pre ++ cur' ++ c :: r)) as Hskip.
    { intros cur' H. apply (IH _ _ _ (pre ++ cur' ++ [c])) in H.
      simpl in H. now rewrite <- !app_assoc in H. }
    assert (forall a, In p (split_sentences_from false a (cur ++ [c]) r) ->
                      infix p (pre ++ cur ++ c :: r)) as Hgrow.
    { intros a H. apply (IH _ _ _ pre) in H.
      now rewrite <- app_assoc in H. }
    destruct (isspace c).
    + destruct in_sep; [now apply Hskip|].
      destruct after_end; [|now apply (Hgrow false)].
      destruct Hin as [<-|Hin]; [|now apply Hskip].
      exists pre, (c :: r). reflexivity.
    + now apply (Hgrow (is_sentence_end c)).
Qed.

Lemma sentences_of_infix (chunk s : str) :
  In s (sentences_of chunk) -> infix s chunk.
Proof.
  unfold sentences_of. intros H. apply in_map_iff in H.
  destruct H as (s' & <- & Hs'). apply filter_In in Hs'.
  destruct Hs' as [Hs' _].
  apply (infix_trans _ s'); [apply strip_infix|].
  apply (split_sentences_infix chunk false false [] []). exact Hs'.
Qed.

Lemma sentences_of_nonempty (chunk s : str) :
  In s (sentences_of chunk) -> s <> [].
Proof.
  unfold sentences_of. intros H. apply in_map_iff in H.
  destruct H as (s' & <- & Hs'). apply filter_In in Hs'.
  now apply truthy_true.
Qed.

Lemma first_longest_in (x : str) (l : list str) : first_longest x l -> In x l.
Proof.
  intros (l1 & l2 & -> & _). apply in_or_app. right. now left.
Qed.

(** A string with a character that is not white space has a word. *)
Lemma split_ws_nil (s : str) :
  forall cur, split_ws_from cur s = [] -> cur = [] /\ non_space s = [].
Proof.
  induction s as [|c r IH]; intros cur H; cbn [split_ws_from] in H.
  - destruct cur; [auto | discriminate].
  - destruct (isspace c) eqn:Es.
    + apply app_eq_nil in H. destruct H as [H1 H2].
      apply IH in H2. destruct H2 as [_ H2].
      split; [destruct cur; [reflexivity | discriminate]|].
      now rewrite non_space_space.
    + apply IH in H. destruct H as [H _]. now destruct cur.
Qed.

Lemma infix_content (p s : str) :
  infix p s -> non_space p <> [] -> non_space s <> [].
Proof.
  intros (a & b & ->) Hp E. rewrite !non_space_app in E.
  apply app_eq_nil in E. destruct E as [_ E].
  apply app_eq_nil in E. tauto.
Qed.

End GeneratedQuestion.

(** X4.  A generated question has an answer that is not empty, is its
    own trimmed form and is a contiguous piece of the chunk; its keyword
    is not empty, consists of letters and digits only and is what is
    left of one white-space-separated word of the answer; and the word
    count returned with it is at least 1. *)
Theorem X4_generated_question_well_formed (chunk q a : str) (d : Z) :
  _generate_question_from_chunk chunk = Some (q, a, d) ->
  a <> [] /\ strip a = a /\ infix a chunk
  /\ (exists w,
         In w (split a) /\ keep_alnum w <> []
         /\ forallb is_alnum (keep_alnum w) = true
         /\ q = lit "What does the term '" ++ keep_alnum w
                ++ lit "' refer to in this context?")
  /\ 1 <= d.
Proof.
  rewrite generate_unfold.
  destruct (sentences_of chunk) as [|s0 srest] eqn:Es; [discriminate|].
  pose proof (first_longest_in _ _ (max_len_first_longest s0 srest)) as Hin.
  rewrite <- Es in Hin.
  pose proof (sentences_of_stripped chunk _ Hin) as Hfix.
  pose proof (sentences_of_nonempty chunk _ Hin) as Hne.
  pose proof (sentences_of_infix chunk _ Hin) as Hinf.
  destruct (tokens_of (max_len s0 srest)) as [|w0 wrest] eqn:Ew;
    [discriminate|].
  intros E. inversion E; subst q a d; clear E. rewrite Hfix.
  repeat split; auto.
  - pose proof (first_longest_in _ _ (max_len_first_longest w0 wrest)) as Hk.
    rewrite <- Ew in Hk. unfold tokens_of in Hk.
    apply filter_In in Hk. destruct Hk as [Hk Ht].
    apply in_map_iff in Hk. destruct Hk as (w & Hw & Hsplit).
    exists w. rewrite Hw. repeat split; auto.
    + now apply truthy_true.
    + rewrite <- Hw. unfold keep_alnum. apply forallb_forall.
      intros c Hc. now apply filter_In in Hc.
  - unfold word_count.
    destruct (split chunk) as [|w ws] eqn:Esp; [|simpl; lia].
    exfalso. apply split_ws_nil in Esp. destruct Esp as [_ Esp].
    apply (infix_content _ _ Hinf); [|exact Esp].
    apply no_lead_content; [|exact Hne].
    now apply strip_fix_inv in Hfix.
Qed.

Lemma X4_witness :
  lit "Paris is the capital of France." <> []
  /\ strip (lit "Paris is the capital of France.")
     = lit "Paris is the capital of France."
  /\ infix (lit "Paris is the capital of France.")
       (lit "Paris is the capital of France.")
  /\ (exists w,
         In w (split (lit "Paris is the capital of France."))
         /\ keep_alnum w <> []
         /\ forallb is_alnum (keep_alnum w) = true
         /\ lit "What does the term 'capital' refer to in this context?"
            = lit "What does the term '" ++ keep_alnum w
              ++ lit "' refer to in this context?")
  /\ 1 <= 6.
Proof.
  apply (X4_generated_question_well_formed
           (lit "Paris is the capital of France.")).
  reflexivity.
Defined.

(** * Further properties of the session set-up *)

(** X5.  The difficulty of a word count is 0 up to 40 words, 1 from 41
    to 100 and 2 above; it never decreases when the word count grows. *)
Theorem X5_difficulty_steps (a b : Z) :
  (_difficulty_from_length a = 0 <-> a <= 40)
  /\ (_difficulty_from_length a = 1 <-> 40 < a <= 100)
  /\ (_difficulty_from_length a = 2 <-> 100 < a)
  /\ (a <= b -> _difficulty_from_length a <= _difficulty_from_length b).
Proof.
  unfold _difficulty_from_length.
  destruct (Z.leb_spec a 40), (Z.leb_spec a 100),
    (Z.leb_spec b 40), (Z.leb_spec b 100); repeat split; intros; lia.
Qed.

Section SetUp.

Variable topic : option str.

Lemma question_of_difficulty (chunk : str) (q : Question) :
  question_of topic chunk = Some q -> In (difficulty q) [0; 1; 2].
Proof.
  unfold question_of. destruct (match topic with Some _ => _ | None => _ end);
    [discriminate|].
  destruct (_generate_question_from_chunk chunk) as [[[qt at'] n]|];
    [|discriminate].
  intros E. inversion E; subst. apply difficulty_range.
Qed.

Lemma add_chunk_buckets (b0 b1 b2 : list Question) (chunk : str) :
  add_chunk topic [(0, b0); (1, b1); (2, b2)] chunk
  = Ok [(0, b0 ++ questions_at 0 (one_question topic chunk));
        (1, b1 ++ questions_at 1 (one_question topic chunk));
        (2, b2 ++ questions_at 2 (one_question topic chunk))].
Proof.
  unfold add_chunk, one_question, question_of.
  destruct (match topic with Some _ => _ | None => _ end).
  - simpl. now rewrite !app_nil_r.
  - destruct (_generate_question_from_chunk chunk) as [[[qt at'] n]|].
    + unfold _difficulty_from_length.
      destruct (n <=? 40); [|destruct (n <=? 100)];
        simpl; now rewrite !app_nil_r.
    + simpl. now rewrite !app_nil_r.
Qed.

Lemma add_chunks_buckets (chunks : list str) :
  forall b0 b1 b2,
    add_chunks topic [(0, b0); (1, b1); (2, b2)] chunks
    = Ok [(0, b0 ++ questions_at 0 (questions_of topic chunks));
          (1, b1 ++ questions_at 1 (questions_of topic chunks));
          (2, b2 ++ questions_at 2 (questions_of topic chunks))].
Proof.
  induction chunks as [|c r IH]; intros b0 b1 b2.
  - simpl. now rewrite !app_nil_r.
  - cbn [add_chunks]. rewrite add_chunk_buckets, IH.
    unfold questions_of, questions_at. cbn [flat_map].
    rewrite !filter_app, <- !app_assoc. reflexivity.
Qed.

Lemma questions_of_difficulty (chunks : list str) :
  Forall (fun q => In (difficulty q) [0; 1; 2]) (questions_of topic chunks).
Proof.
  unfold questions_of. apply Forall_forall. intros q Hq.
  apply in_flat_map in Hq. destruct Hq as (c & _ & Hq).
  unfold one_question in Hq.
  destruct (question_of topic c) as [q'|] eqn:E; [|destruct Hq].
  destruct Hq as [<-|[]]. now apply question_of_difficulty in E.
Qed.

Lemma questions_at_lengths (qs : list Question) :
  Forall (fun q => In (difficulty q) [0; 1; 2]) qs ->
  (List.length (questions_at 0 qs) + List.length (questions_at 1 qs)
   + List.length (questions_at 2 qs) = List.length qs)%nat.
Proof.
  unfold questions_at.
  induction 1 as [|q r Hq _ IH]; simpl; [reflexivity|].
  destruct Hq as [<-|[<-|[<-|[]]]]; simpl; lia.
Qed.

End SetUp.

(** The session [__init__] builds: bucket [l] is what [random.shuffle]
    makes of the questions of difficulty [l], taken in the order of
    their chunks. *)
Lemma init_buckets (shuffle : Z -> list Question -> list Question)
  (notes : str) (tp : option str) (mn mx : Z) :
  QuizSession_init shuffle notes tp mn mx
  = Ok (mkSession notes tp mn mx
          (map (fun l =>
                  (l, shuffle l
                        (questions_at l
                           (questions_of tp (split_into_chunks notes mn mx)))))
             [0; 1; 2])
          1 0 0).
Proof.
  unfold QuizSession_init, _prepare_questions.
  cbn [questions_by_level topic raw_notes min_chunk_length max_chunk_length].
  rewrite add_chunks_buckets. reflexivity.
Qed.

(** X6.  When the shuffle permutes, [__init__] succeeds and bucket [l]
    holds, in some order, exactly the questions of difficulty [l] made
    from the chunks of the notes that pass the topic filter: each such
    question is in one bucket, once, and the buckets hold nothing
    else. *)
Theorem X6_buckets_hold_the_generated_questions
  (shuffle : Z -> list Question -> list Question)
  (notes : str) (tp : option str) (mn mx : Z) :
  shuffles shuffle ->
  let generated := questions_of tp (split_into_chunks notes mn mx) in
  exists s,
    QuizSession_init shuffle notes tp mn mx = Ok s
    /\ (forall l, In l [0; 1; 2] ->
          exists qs,
            dict_get (questions_by_level s) l = Some qs
            /\ Permutation qs (questions_at l generated)
            /\ Forall (fun q => difficulty q = l) qs)
    /\ total_questions s = Z.of_nat (List.length generated).
Proof.
  intros Hsh generated. eexists. split; [apply init_buckets|].
  fold generated. cbn [questions_by_level map]. split.
  - intros l Hl. exists (shuffle l (questions_at l generated)).
    split; [|split].
    + destruct Hl as [<-|[<-|[<-|[]]]]; reflexivity.
    + apply Hsh.
    + apply Forall_forall. intros q Hq.
      apply (Permutation_in _ (Hsh l _)) in Hq.
      unfold questions_at in Hq. apply filter_In in Hq.
      now apply Z.eqb_eq.
  - unfold total_questions. cbn [questions_by_level fold_right snd].
    rewrite !(Permutation_length (Hsh _ _)).
    pose proof (questions_at_lengths generated
                  (questions_of_difficulty tp _)) as H.
    lia.
Qed.

Lemma X6_witness :
  exists s,
    QuizSession_init (fun _ qs => qs) demo_notes None 10 40 = Ok s
    /\ (forall l, In l [0; 1; 2] ->
          exists qs,
            dict_get (questions_by_level s) l = Some qs
            /\ Permutation qs
                 (questions_at l
                    (questions_of None (split_into_chunks demo_notes 10 40)))
            /\ Forall (fun q => difficulty q = l) qs)
    /\ total_questions s
       = Z.of_nat
           (List.length
              (questions_of None (split_into_chunks demo_notes 10 40))).
Proof.
  apply (X6_buckets_hold_the_generated_questions (fun _ qs => qs)
           demo_notes None 10 40).
  intros l qs. apply Permutation_refl.
Defined.

Lemma lower_truthy (t : str) : truthy (lower t) = truthy t.
Proof. now destruct t. Qed.

Lemma question_of_same_filter (t t' : str) (chunk : str) :
  lower t = lower t' ->
  question_of (Some t) chunk = question_of (Some t') chunk.
Proof.
  intros E. unfold question_of.
  now rewrite <- (lower_truthy t), <- (lower_truthy t'), E.
Qed.

Lemma questions_of_same_filter (t t' : str) (chunks : list str) :
  lower t = lower t' ->
  questions_of (Some t) chunks = questions_of (Some t') chunks.
Proof.
  intros E. unfold questions_of, one_question.
  apply flat_map_ext. intros c.
  now rewrite (question_of_same_filter t t' c E).
Qed.

(** The buckets of two sessions built from the same generated
    questions, each with its own shuffle, hold the same questions level
    by level, in orders that may differ. *)
Lemma built_buckets_permuted
  (shuffle shuffle' : Z -> list Question -> list Question)
  (notes : str) (tp tp' : option str) (mn mx : Z) :
  shuffles shuffle -> shuffles shuffle' ->
  questions_of tp (split_into_chunks notes mn mx)
  = questions_of tp' (split_into_chunks notes mn mx) ->
  exists s s',
    QuizSession_init shuffle notes tp mn mx = Ok s
    /\ QuizSession_init shuffle' notes tp' mn mx = Ok s'
    /\ forall l, In l [0; 1; 2] ->
         exists qs qs',
           dict_get (questions_by_level s) l = Some qs
           /\ dict_get (questions_by_level s') l = Some qs'
           /\ Permutation qs qs'.
Proof.
  intros Hsh Hsh' E. rewrite !init_buckets, E. eexists. eexists.
  split; [reflexivity|]. split; [reflexivity|].
  cbn [questions_by_level map]. intros l Hl.
  eexists. eexists.
  split; [destruct Hl as [<-|[<-|[<-|[]]]]; reflexivity|].
  split; [destruct Hl as [<-|[<-|[<-|[]]]]; reflexivity|].
  eapply Permutation_trans; [apply Hsh|].
  apply Permutation_sym, Hsh'.
Qed.

(** X7.  The topic filter looks at the lower-case form of the topic
    only: two sessions on the same notes whose topics have the same
    lower-case form hold the same questions in each bucket, up to the
    order each shuffle leaves, and the empty topic filters nothing, as
    no topic does. *)
Theorem X7_topic_filter_ignores_case
  (shuffle shuffle' : Z -> list Question -> list Question)
  (notes : str) (mn mx : Z) :
  shuffles shuffle -> shuffles shuffle' ->
  (forall t t',
      lower t = lower t' ->
      exists s s',
        QuizSession_init shuffle notes (Some t) mn mx = Ok s
        /\ QuizSession_init shuffle' notes (Some t') mn mx = Ok s'
        /\ forall l, In l [0; 1; 2] ->
             exists qs qs',
               dict_get (questions_by_level s) l = Some qs
               /\ dict_get (questions_by_level s') l = Some qs'
               /\ Permutation qs qs')
  /\ (exists s s',
         QuizSession_init shuffle notes (Some []) mn mx = Ok s
         /\ QuizSession_init shuffle' notes None mn mx = Ok s'
         /\ forall l, In l [0; 1; 2] ->
              exists qs qs',
                dict_get (questions_by_level s) l = Some qs
                /\ dict_get (questions_by_level s') l = Some qs'
                /\ Permutation qs qs').
Proof.
  intros Hsh Hsh'. split.
  - intros t t' E. apply built_buckets_permuted; auto.
    now apply questions_of_same_filter.
  - apply built_buckets_permuted; auto.
Qed.

Lemma X7_witness :
  exists s s',
    QuizSession_init (fun _ qs => qs) demo_notes (Some (lit "PARIS")) 10 40
    = Ok s
    /\ QuizSession_init (fun _ qs => rev qs) demo_notes
         (Some (lit "paris")) 10 40
       = Ok s'
    /\ forall l, In l [0; 1; 2] ->
         exists qs qs',
           dict_get (questions_by_level s) l = Some qs
           /\ dict_get (questions_by_level s') l = Some qs'
           /\ Permutation qs qs'.
Proof.
  apply (proj1 (X7_topic_filter_ignores_case (fun _ qs => qs)
                  (fun _ qs => rev qs) demo_notes 10 40
                  (fun l qs => Permutation_refl qs)
                  (fun l qs => Permutation_sym (Permutation_rev qs)))).
  reflexivity.
Defined.

(** * Further properties of the quiz loop *)

Section Accounting.

Lemma total_nonneg (s : QuizSession) : 0 <= total_questions s.
Proof.
  unfold total_questions.
  induction (questions_by_level s) as [|[k qs] r IH]; simpl; lia.
Qed.

(** Replacing a bucket changes the total by the change of its
    length. *)
Lemma total_dict_set (d : dict (list Question)) (k : Z)
  (old new : list Question) :
  dict_get d k = Some old ->
  fold_right (fun p n => Z.of_nat (List.length (snd p)) + n) 0
    (dict_set d k new)
  = fold_right (fun p n => Z.of_nat (List.length (snd p)) + n) 0 d
    - Z.of_nat (List.length old) + Z.of_nat (List.length new).
Proof.
  induction d as [|[k' v] r IH]; simpl; [discriminate|].
  destruct (k' =? k).
  - intros E. inversion E; subst. simpl. lia.
  - intros E. simpl. rewrite (IH E). lia.
Qed.

Lemma remaining_nil_total (s : QuizSession) :
  remaining_levels_of s = [] -> total_questions s = 0.
Proof.
  unfold remaining_levels_of, total_questions.
  induction (questions_by_level s) as [|[k qs] r IH]; simpl; [reflexivity|].
  destruct qs as [|q qs]; simpl; [|discriminate].
  intros E. now rewrite IH.
Qed.

Lemma set_level_same (s : QuizSession) : set_level s (current_level s) = s.
Proof. now destruct s. Qed.

(** What reselection does: it may change the level and, unless quiet,
    print; it breaks only when no question is left. *)
Lemma reselect_level_effect (quiet : bool) (w : world) :
  let r := reselect_level quiet w in
  questions_by_level (self (snd r)) = questions_by_level (self w)
  /\ correct_count (self (snd r)) = correct_count (self w)
  /\ incorrect_count (self (snd r)) = incorrect_count (self w)
  /\ pending (tty (snd r)) = pending (tty w)
  /\ (quiet = true -> printed (tty (snd r)) = printed (tty w))
  /\ (fst r = Ok Continue
      \/ (fst r = Ok Break /\ total_questions (self w) = 0
          /\ self (snd r) = self w)
      \/ (fst r = Raise KeyError /\ snd r = w)).
Proof.
  cbv zeta. cbv [reselect_level bucket bind get_self ret raise put_self].
  destruct (dict_get _ _) as [[|q qs]|]; cbn [fst snd self tty];
    try (repeat split; auto; fail).
  destruct (remaining_levels_of (self w)) as [|l0 ls] eqn:Er.
  - apply remaining_nil_total in Er.
    destruct quiet; cbn [unless print fst snd self tty pending printed];
      repeat split; auto; try discriminate.
  - cbn [fst snd self tty]. repeat split; auto.
Qed.

(** What [pop] does: it takes one question out of the bucket of the
    level, or raises and changes nothing. *)
Lemma pop_question_effect (w : world) :
  let r := pop_question w in
  tty (snd r) = tty w
  /\ correct_count (self (snd r)) = correct_count (self w)
  /\ incorrect_count (self (snd r)) = incorrect_count (self w)
  /\ match fst r with
     | Ok q => total_questions (self (snd r)) = total_questions (self w) - 1
     | Raise e => e <> EOFError /\ snd r = w
     end.
Proof.
  cbv zeta. cbv [pop_question bucket bind get_self ret raise put_self].
  destruct (dict_get _ _) as [qs|] eqn:E; cbn [fst snd self tty];
    [|repeat split; auto; discriminate].
  destruct (rev qs) as [|q rqs] eqn:Er; cbn [fst snd self tty];
    [repeat split; auto; discriminate|].
  repeat split; auto.
  unfold total_questions. cbn [questions_by_level set_buckets].
  rewrite (total_dict_set _ _ qs _ E).
  apply (f_equal (@rev _)) in Er. rewrite rev_involutive in Er. subst qs.
  simpl. rewrite length_app, !length_rev. simpl. lia.
Qed.

(** What grading does to the counters: one of them grows by 1. *)
Lemma grade_and_adapt_effect (quiet : bool) (q : Question) (user_answer : str)
  (w : world) :
  let r := grade_and_adapt quiet q user_answer w in
  fst r = Ok tt
  /\ questions_by_level (self (snd r)) = questions_by_level (self w)
  /\ correct_count (self (snd r))
     = correct_count (self w)
       + (if _check_answer user_answer (answer q) then 1 else 0)
  /\ incorrect_count (self (snd r))
     = incorrect_count (self w)
       + (if _check_answer user_answer (answer q) then 0 else 1)
  /\ pending (tty (snd r)) = pending (tty w)
  /\ (quiet = true -> printed (tty (snd r)) = printed (tty w)).
Proof.
  cbv zeta. unfold grade_and_adapt.
  destruct (_check_answer user_answer (answer q));
    cbv [bind get_self ret put_self unless print]; destruct quiet;
    cbn [fst snd self tty current_level set_correct set_incorrect
         correct_count incorrect_count pending printed];
    [ destruct (current_level (self w) <? 2)
    | destruct (current_level (self w) <? 2)
    | destruct (0 <? current_level (self w))
    | destruct (0 <? current_level (self w)) ];
    cbn [fst snd self tty questions_by_level set_level correct_count
         incorrect_count pending printed];
    repeat split; auto; try lia; try discriminate;
    simpl; lia.
Qed.

End Accounting.

Section LoopOutcome.

Variable num_questions : Z.
Variable quiet : bool.

Lemma bind_ok {A B} (m : M A) (k : A -> M B) (w w1 : world) (a : A) :
  m w = (Ok a, w1) -> bind m k w = k a w1.
Proof. intros E. unfold bind. now rewrite E. Qed.

Lemma bind_raise {A B} (m : M A) (k : A -> M B) (w w1 : world) (e : exn) :
  m w = (Raise e, w1) -> bind m k w = (Raise e, w1).
Proof. intros E. unfold bind. now rewrite E. Qed.

Lemma total_same (s s' : QuizSession) :
  questions_by_level s' = questions_by_level s ->
  total_questions s' = total_questions s.
Proof. unfold total_questions. now intros ->. Qed.

(** The lines printed before the prompt, unless quiet. *)
Lemma header_effect (q : Question) (i : Z) (w : world) :
  let r :=
    unless quiet
      (s <- get_self ;;
       print (question_header i num_questions (current_level s)) ;;;
       print (text q)) w in
  fst r = Ok tt /\ self (snd r) = self w
  /\ pending (tty (snd r)) = pending (tty w)
  /\ (quiet = true -> snd r = w).
Proof.
  cbv zeta. destruct quiet; cbv [unless bind get_self print ret];
    cbn [fst snd self tty pending]; repeat split; auto; discriminate.
Qed.

(** What the rest of the iteration does once a question is taken
    out. *)
Lemma answer_effect (q : Question) (w : world) :
  let r :=
    (user_answer <- input prompt ;;
     grade_and_adapt quiet q user_answer ;;;
     ret Continue) w in
  questions_by_level (self (snd r)) = questions_by_level (self w)
  /\ correct_count (self w) <= correct_count (self (snd r))
  /\ incorrect_count (self w) <= incorrect_count (self (snd r))
  /\ match pending (tty w) with
     | [] =>
         fst r = Raise EOFError /\ self (snd r) = self w
         /\ pending (tty (snd r)) = []
         /\ printed (tty (snd r)) = printed (tty w) ++ [prompt]
     | a :: rest =>
         fst r = Ok Continue /\ pending (tty (snd r)) = rest
         /\ answered (self (snd r)) = answered (self w) + 1
         /\ (quiet = true ->
             printed (tty (snd r)) = printed (tty w) ++ [prompt])
     end.
Proof.
  cbv zeta. unfold bind, input.
  destruct (pending (tty w)) as [|a rest]; cbn [fst snd self tty pending
                                                  printed].
  - repeat split; auto; lia.
  - match goal with
    | |- context [grade_and_adapt quiet q a ?w1] =>
        pose proof (grade_and_adapt_effect quiet q a w1)
          as (Hr & Hq & Hc & Hi & Hp & Hpr);
        cbv zeta in Hr, Hq, Hc, Hi, Hp, Hpr;
        destruct (grade_and_adapt quiet q a w1) as [r1 w2]
    end.
    cbn [fst snd self tty pending printed] in *. subst r1.
    cbv [ret]. cbn [fst snd self questions_by_level].
    unfold answered. rewrite Hq, Hc, Hi, Hp.
    repeat split; auto;
      destruct (_check_answer a (answer q)); lia.
Qed.

(** One iteration of the loop of [ask]. *)
Lemma ask_body_effect (i : Z) (w : world) :
  body_outcome quiet w
    (fst (ask_body num_questions quiet i w))
    (snd (ask_body num_questions quiet i w)).
Proof.
  unfold ask_body.
  pose proof (reselect_level_effect quiet w)
    as (Hq1 & Hc1 & Hi1 & Hp1 & Hpr1 & Hk1).
  cbv zeta in Hq1, Hc1, Hi1, Hp1, Hpr1, Hk1.
  destruct (reselect_level quiet w) as [r1 w1] eqn:E1.
  cbn [fst snd] in *.
  assert (answered (self w1) = answered (self w)) as Ha1
      by (unfold answered; now rewrite Hc1, Hi1).
  pose proof (total_same _ _ Hq1) as Ht1.
  destruct Hk1 as [->|[(-> & Hz & Hs)|(-> & ->)]].
  2:{ rewrite (bind_ok _ _ _ _ _ E1). cbn [ret fst snd].
      unfold body_outcome. rewrite Hc1, Hi1. repeat split; auto; lia. }
  2:{ rewrite (bind_raise _ _ _ _ _ E1). cbn [fst snd].
      unfold body_outcome. repeat split; auto; lia. }
  rewrite (bind_ok _ _ _ _ _ E1).
  pose proof (pop_question_effect w1) as (Ht2 & Hc2 & Hi2 & Hk2).
  cbv zeta in Ht2, Hc2, Hi2, Hk2.
  destruct (pop_question w1) as [[q|e] w2] eqn:E2; cbn [fst snd] in *.
  2:{ rewrite (bind_raise _ _ _ _ _ E2). cbn [fst snd].
      destruct Hk2 as [He ->]. unfold body_outcome.
      rewrite Hc1, Hi1.
      destruct e; try congruence; repeat split; auto; lia. }
  rewrite (bind_ok _ _ _ _ _ E2).
  pose proof (header_effect q i w2) as (Hr3 & Hs3 & Hp3 & Hw3).
  cbv zeta in Hr3, Hs3, Hp3, Hw3.
  destruct (unless quiet _ w2) as [r3 w3] eqn:E3. cbn [fst snd] in *.
  subst r3. rewrite (bind_ok _ _ _ _ _ E3).
  pose proof (answer_effect q w3) as (Hq4 & Hc4 & Hi4 & Hk4).
  cbv zeta in Hq4, Hc4, Hi4, Hk4. fold prompt.
  destruct ((user_answer <- input prompt ;;
             grade_and_adapt quiet q user_answer ;;; ret Continue) w3)
    as [r4 w4]. cbn [fst snd] in *.
  pose proof (total_same _ _ Hq4) as Ht4.
  assert (printed_quiet : quiet = true -> printed (tty w3) = printed (tty w)).
  { intros Hqt. rewrite (Hw3 Hqt), Ht2. now apply Hpr1. }
  assert (answered (self w3) = answered (self w)) as Ha3.
  { unfold answered in *. rewrite Hs3, Hc2, Hi2. exact Ha1. }
  assert (total_questions (self w3) = total_questions (self w) - 1) as Ht3.
  { rewrite Hs3, Hk2, Ht1. reflexivity. }
  assert (pending (tty w3) = pending (tty w)) as Hp.
  { now rewrite Hp3, Ht2, Hp1. }
  assert (correct_count (self w3) = correct_count (self w)) as Hcc
      by (now rewrite Hs3, Hc2, Hc1).
  assert (incorrect_count (self w3) = incorrect_count (self w)) as Hic
      by (now rewrite Hs3, Hi2, Hi1).
  unfold body_outcome. rewrite <- Hcc, <- Hic.
  split; [exact Hc4|]. split; [exact Hi4|].
  rewrite <- Hp. destruct (pending (tty w3)) as [|a rest].
  - destruct Hk4 as (-> & Hs4 & Hp4 & Hpr4).
    rewrite Hs4. repeat split; auto.
    intros Hqt. now rewrite Hpr4, (printed_quiet Hqt).
  - destruct Hk4 as (-> & Hp4 & Ha4 & Hpr4).
    rewrite Ht4, Ha4, Ha3. repeat split; auto.
    + exists a. now rewrite Hp4.
    + intros Hqt. now rewrite (Hpr4 Hqt), (printed_quiet Hqt).
Qed.

End LoopOutcome.

Section LoopRuns.

Variable num_questions : Z.
Variable quiet : bool.

(** The iterations of the loop of [ask]. *)
Lemma for_range_outcome (n : nat) :
  forall i w,
    loop_outcome quiet n w
      (fst (for_range (ask_body num_questions quiet) n i w))
      (snd (for_range (ask_body num_questions quiet) n i w)).
Proof.
  induction n as [|n IH]; intros i w.
  - exists O. simpl. rewrite app_nil_r. repeat split; auto; lia.
  - cbn [for_range].
    pose proof (ask_body_effect num_questions quiet i w) as (Hc & Hi & Hb).
    destruct (ask_body num_questions quiet i w) as [[[|]|e] w1] eqn:E;
      cbn [fst snd] in Hc, Hi, Hb.
    + rewrite (bind_ok _ _ _ _ _ E).
      destruct Hb as (Ha & Ht & (a & Hp) & Hpr).
      specialize (IH (i + 1) w1).
      destruct (for_range _ n (i + 1) w1) as [r w']. cbn [fst snd] in *.
      destruct IH as (k & Hk & Hkl & Hsk & Hak & Hck & Hik & Hr).
      assert (forall j,
                 (quiet = true ->
                  printed (tty w') = printed (tty w1) ++ repeat prompt j) ->
                 quiet = true ->
                 printed (tty w') = printed (tty w) ++ repeat prompt (S j))
        as Hprint.
      { intros j Hj Hq. rewrite (Hj Hq), (Hpr Hq), <- app_assoc.
        reflexivity. }
      exists (S k). rewrite Hp. cbn [skipn List.length].
      split; [lia|]. split; [lia|]. split; [exact Hsk|].
      split; [lia|]. split; [lia|]. split; [lia|].
      destruct r as [[]|[]].
      * destruct Hr as (Ht' & Hpr' & Hlt').
        split; [lia|]. split; [now apply Hprint|]. intros; apply Hlt'; lia.
      * destruct Hr as (Ht' & Hpr' & Hlt').
        split; [lia|]. split; [now apply Hprint | lia].
      * destruct Hr as (Ht' & Hpr' & Hlt').
        split; [lia|]. split; [now apply Hprint | lia].
      * destruct Hr as (Ht' & Hlen & Hpr' & Hlt').
        split; [lia|]. split; [lia|]. split; [now apply Hprint | lia].
      * destruct Hr as (Ht' & Hpr' & Hlt').
        split; [lia|]. split; [now apply Hprint | lia].
    + rewrite (bind_ok _ _ _ _ _ E). cbn [ret fst snd].
      destruct Hb as (Ha & Ht & Hz & Hp & Hpr).
      exists O. cbn [skipn repeat]. rewrite app_nil_r.
      repeat split; auto; lia.
    + rewrite (bind_raise _ _ _ _ _ E). cbn [fst snd].
      exists O. cbn [skipn].
      destruct e; cbn [repeat]; rewrite ?app_nil_r.
      * destruct Hb as (Ha & Ht & Hp & Hpr). repeat split; auto; lia.
      * destruct Hb as (Ha & Ht & Hp & Hpr). repeat split; auto; lia.
      * destruct Hb as (Ha & Ht & Hp & Hp' & Hpr).
        rewrite Hp, Hp'. repeat split; auto; lia.
      * destruct Hb as (Ha & Ht & Hp & Hpr). repeat split; auto; lia.
Qed.

(** [ask] as a whole: the summary changes neither the session nor the
    input and prints only unless quiet. *)
Lemma ask_outcome (w : world) :
  loop_outcome quiet (Z.to_nat num_questions) w
    (fst (ask num_questions quiet w)) (snd (ask num_questions quiet w)).
Proof.
  pose proof (for_range_outcome (Z.to_nat num_questions) 0 w) as H.
  unfold ask.
  destruct (for_range _ _ 0 w) as [[[]|e] w1] eqn:E; cbn [fst snd] in H.
  - rewrite (bind_ok _ _ _ _ _ E).
    destruct quiet eqn:Eq; cbn [unless ret fst snd]; [exact H|].
    rewrite print_summary_ok. cbn [fst snd].
    destruct H as (k & H1 & H2 & H3 & H4 & H5 & H6 & H7 & H8 & H9).
    exists k. unfold printing. cbn [self tty pending].
    repeat split; auto. discriminate.
  - rewrite (bind_raise _ _ _ _ _ E). exact H.
Qed.

Lemma bucket_ready (w : world) :
  level_ok (self w) ->
  exists qs,
    dict_get (questions_by_level (self w)) (current_level (self w)) = Some qs.
Proof.
  intros [Hk Hl]. apply dict_get_some. rewrite Hk. simpl. lia.
Qed.

(** After reselection the bucket of the level is not empty, unless the
    loop breaks. *)
Lemma reselect_level_ready (w : world) :
  level_ok (self w) ->
  fst (reselect_level quiet w) = Ok Break
  \/ (fst (reselect_level quiet w) = Ok Continue
      /\ exists qs,
           dict_get (questions_by_level (self (snd (reselect_level quiet w))))
             (current_level (self (snd (reselect_level quiet w)))) = Some qs
           /\ qs <> []).
Proof.
  intros Hok. destruct (bucket_ready w Hok) as (qs & E).
  destruct qs as [|q qs].
  - rewrite (reselect_level_empty quiet w E).
    destruct (reselect_level_choice w (proj1 Hok))
      as [[_ Hrem]|(l0 & ls & Hrem & _ & Hpos & _)]; rewrite Hrem.
    + now left.
    + right. split; [reflexivity|]. cbn [fst snd self].
      cbn [questions_by_level current_level set_level].
      cbv zeta in Hpos.
      remember (max_by_key (bucket_len (self w)) l0 ls) as l eqn:El.
      unfold bucket_len in Hpos.
      destruct (dict_get (questions_by_level (self w)) l) as [[|q qs]|]
        eqn:Eb; simpl in Hpos; try lia.
      exists (q :: qs). split; [reflexivity | discriminate].
  - right.
    assert (reselect_level quiet w = (Ok Continue, w)) as ->.
    { cbv [reselect_level bucket bind get_self ret raise put_self].
      now rewrite E. }
    split; [reflexivity|]. exists (q :: qs). split; [exact E | discriminate].
Qed.

Lemma pop_question_ready (w : world) (qs : list Question) :
  dict_get (questions_by_level (self w)) (current_level (self w)) = Some qs ->
  qs <> [] ->
  exists q, fst (pop_question w) = Ok q.
Proof.
  intros E Hne. cbv [pop_question bucket bind get_self ret raise put_self].
  rewrite E. destruct (rev qs) as [|q rqs] eqn:Er.
  - apply (f_equal (@rev _)) in Er. rewrite rev_involutive in Er.
    now subst qs.
  - now exists q.
Qed.

(** From a session with its three buckets and a level among them an
    iteration raises nothing but the end of the input. *)
Lemma ask_body_raises (i : Z) (w : world) (e : exn) :
  level_ok (self w) ->
  fst (ask_body num_questions quiet i w) = Raise e -> e = EOFError.
Proof.
  intros Hok. unfold ask_body.
  destruct (reselect_level_ready w Hok) as [H|(H & qs & Hq & Hne)];
    destruct (reselect_level quiet w) as [r1 w1] eqn:E1;
    cbn [fst snd] in *; subst r1; rewrite (bind_ok _ _ _ _ _ E1).
  - discriminate.
  - destruct (pop_question_ready w1 qs Hq Hne) as (q & Hpop).
    destruct (pop_question w1) as [r2 w2] eqn:E2. cbn [fst] in Hpop.
    subst r2. rewrite (bind_ok _ _ _ _ _ E2).
    pose proof (header_effect num_questions quiet q i w2) as (Hr3 & _).
    cbv zeta in Hr3.
    destruct (unless quiet _ w2) as [r3 w3] eqn:E3. cbn [fst] in Hr3.
    subst r3. rewrite (bind_ok _ _ _ _ _ E3).
    pose proof (answer_effect quiet q w3) as (_ & _ & _ & Hk4).
    cbv zeta in Hk4. fold prompt.
    destruct (pending (tty w3)).
    + destruct Hk4 as (-> & _). congruence.
    + destruct Hk4 as (-> & _). discriminate.
Qed.

Lemma for_range_raises (n : nat) :
  forall i w e,
    level_ok (self w) ->
    fst (for_range (ask_body num_questions quiet) n i w) = Raise e ->
    e = EOFError.
Proof.
  induction n as [|n IH]; intros i w e Hok; [discriminate|].
  cbn [for_range].
  pose proof (ask_body_ok num_questions quiet i w Hok) as Hok1.
  pose proof (ask_body_raises i w) as Hr.
  destruct (ask_body num_questions quiet i w) as [[[|]|e1] w1] eqn:E;
    cbn [fst snd] in *.
  - rewrite (bind_ok _ _ _ _ _ E). now apply IH.
  - rewrite (bind_ok _ _ _ _ _ E). discriminate.
  - rewrite (bind_raise _ _ _ _ _ E). cbn [fst]. intros H.
    inversion H; subst. now apply Hr.
Qed.

Lemma ask_raises (w : world) (e : exn) :
  level_ok (self w) ->
  fst (ask num_questions quiet w) = Raise e -> e = EOFError.
Proof.
  intros Hok. unfold ask.
  pose proof (for_range_raises (Z.to_nat num_questions) 0 w) as Hr.
  destruct (for_range _ _ 0 w) as [[[]|e1] w1] eqn:E; cbn [fst] in Hr.
  - rewrite (bind_ok _ _ _ _ _ E).
    destruct quiet; cbn [unless ret fst]; [discriminate|].
    rewrite print_summary_ok. discriminate.
  - rewrite (bind_raise _ _ _ _ _ E). cbn [fst]. intros H.
    inversion H; subst. now apply Hr.
Qed.

End LoopRuns.

Section Serving.

Variable num_questions : Z.
Variable quiet : bool.
Variable w : world.

Hypothesis session_ok : level_ok (self w).

(** With enough lines of input [ask] serves what it can. *)
Lemma ask_enough_input :
  to_serve num_questions (self w) <= Z.of_nat (List.length (pending (tty w))) ->
  let w' := snd (ask num_questions quiet w) in
  let k := to_serve num_questions (self w) in
  fst (ask num_questions quiet w) = Ok tt
  /\ answered (self w') = answered (self w) + k
  /\ total_questions (self w') = total_questions (self w) - k
  /\ pending (tty w') = skipn (Z.to_nat k) (pending (tty w))
  /\ (quiet = true ->
      printed (tty w') = printed (tty w) ++ repeat prompt (Z.to_nat k)).
Proof.
  intros Hlen. cbv zeta. unfold to_serve in *.
  pose proof (ask_outcome num_questions quiet w)
    as (k & Hk & Hkl & Hsk & Hak & _ & _ & Hr).
  pose proof (ask_raises num_questions quiet w) as Hraise.
  pose proof (total_nonneg (self w)) as Hpos.
  pose proof (total_nonneg (self (snd (ask num_questions quiet w)))) as Hpos'.
  destruct (fst (ask num_questions quiet w)) as [[]|e].
  - destruct Hr as (Ht & Hpr & Hlt).
    assert (Z.min (Z.max 0 num_questions) (total_questions (self w))
            = Z.of_nat k) as ->.
    { destruct (Nat.lt_ge_cases k (Z.to_nat num_questions)) as [H|H].
      - specialize (Hlt H). lia.
      - lia. }
    rewrite Nat2Z.id. repeat split; auto.
  - rewrite (Hraise e session_ok eq_refl) in Hr.
    destruct Hr as (Ht & Hl & _ & Hlt). lia.
Qed.

(** With too few lines of input [ask] ends on [EOFError]; the question
    it had taken out is not graded. *)
Lemma ask_short_input :
  Z.of_nat (List.length (pending (tty w))) < to_serve num_questions (self w) ->
  let w' := snd (ask num_questions quiet w) in
  let k := Z.of_nat (List.length (pending (tty w))) in
  fst (ask num_questions quiet w) = Raise EOFError
  /\ answered (self w') = answered (self w) + k
  /\ total_questions (self w') = total_questions (self w) - k - 1
  /\ pending (tty w') = []
  /\ (quiet = true ->
      printed (tty w')
      = printed (tty w)
        ++ repeat prompt (S (List.length (pending (tty w))))).
Proof.
  intros Hlen. cbv zeta. unfold to_serve in *.
  pose proof (ask_outcome num_questions quiet w)
    as (k & Hk & Hkl & Hsk & Hak & _ & _ & Hr).
  pose proof (ask_raises num_questions quiet w) as Hraise.
  pose proof (total_nonneg (self w)) as Hpos.
  pose proof (total_nonneg (self (snd (ask num_questions quiet w)))) as Hpos'.
  destruct (fst (ask num_questions quiet w)) as [[]|e].
  - destruct Hr as (Ht & Hpr & Hlt).
    destruct (Nat.lt_ge_cases k (Z.to_nat num_questions)) as [H|H].
    + specialize (Hlt H). lia.
    + lia.
  - rewrite (Hraise e session_ok eq_refl) in Hr |- *.
    destruct Hr as (Ht & Hl & Hpr & Hlt). subst k.
    rewrite skipn_all in Hsk. repeat split; auto.
Qed.

End Serving.

(** X8.  Whatever the session and the input, [ask] grades at most
    [num_questions] answers and never lowers a counter; it reads one
    line of input for each answer it grades, in order; when it returns
    normally every graded answer stands for one question taken out of
    the buckets, and when it raises at most one more question was taken
    out. *)
Theorem X8_ask_accounting (num_questions : Z) (quiet : bool) (w : world) :
  let w' := snd (ask num_questions quiet w) in
  let graded := answered (self w') - answered (self w) in
  0 <= graded <= Z.max 0 num_questions
  /\ correct_count (self w) <= correct_count (self w')
  /\ incorrect_count (self w) <= incorrect_count (self w')
  /\ graded <= Z.of_nat (List.length (pending (tty w)))
  /\ pending (tty w') = skipn (Z.to_nat graded) (pending (tty w))
  /\ (fst (ask num_questions quiet w) = Ok tt ->
      total_questions (self w') = total_questions (self w) - graded)
  /\ (forall e,
         fst (ask num_questions quiet w) = Raise e ->
         total_questions (self w) - graded - 1
         <= total_questions (self w') <= total_questions (self w) - graded).
Proof.
  cbv zeta.
  pose proof (ask_outcome num_questions quiet w)
    as (k & Hk & Hkl & Hsk & Hak & Hc & Hi & Hr).
  rewrite Hak.
  replace (answered (self w) + Z.of_nat k - answered (self w))
    with (Z.of_nat k) by lia.
  rewrite Nat2Z.id. repeat split; auto; try lia.
  - intros E. rewrite E in Hr. tauto.
  - rewrite H in Hr. destruct e; lia.
  - rewrite H in Hr. destruct e; lia.
Qed.

(** X9.  In a session that [__init__] built, with at least as many
    lines of input as there are questions to serve, [ask] returns
    normally after it served [min(max(0, num_questions), questions
    available)] questions, one line of input each. *)
Theorem X9_ask_serves_what_it_can (num_questions : Z) (quiet : bool)
  (w : world) :
  reachable w ->
  to_serve num_questions (self w) <= Z.of_nat (List.length (pending (tty w))) ->
  let w' := snd (ask num_questions quiet w) in
  let k := Z.min (Z.max 0 num_questions) (total_questions (self w)) in
  fst (ask num_questions quiet w) = Ok tt
  /\ answered (self w') = answered (self w) + k
  /\ total_questions (self w') = total_questions (self w) - k
  /\ pending (tty w') = skipn (Z.to_nat k) (pending (tty w)).
Proof.
  intros Hr Hlen. apply reachable_level_ok in Hr.
  pose proof (ask_enough_input num_questions quiet w Hr Hlen) as H.
  cbv zeta in *. unfold to_serve in H. tauto.
Qed.

Lemma X9_witness :
  fst (ask 5 true demo_world) = Ok tt
  /\ answered (self (snd (ask 5 true demo_world)))
     = answered (self demo_world)
       + Z.min (Z.max 0 5) (total_questions (self demo_world))
  /\ total_questions (self (snd (ask 5 true demo_world)))
     = total_questions (self demo_world)
       - Z.min (Z.max 0 5) (total_questions (self demo_world))
  /\ pending (tty (snd (ask 5 true demo_world)))
     = skipn (Z.to_nat (Z.min (Z.max 0 5)
                          (total_questions (self demo_world))))
         (pending (tty demo_world)).
Proof.
  apply (X9_ask_serves_what_it_can 5 true demo_world).
  - exact demo_world_reachable.
  - vm_compute. discriminate.
Defined.

(** X10.  In a session that [__init__] built, with fewer lines of
    input than there are questions to serve, [ask] grades an answer for
    every line and then raises [EOFError]; the question it took out for
    the missing answer is gone from its bucket without being graded. *)
Theorem X10_ask_runs_out_of_input (num_questions : Z) (quiet : bool)
  (w : world) :
  reachable w ->
  Z.of_nat (List.length (pending (tty w))) < to_serve num_questions (self w) ->
  let w' := snd (ask num_questions quiet w) in
  let k := Z.of_nat (List.length (pending (tty w))) in
  fst (ask num_questions quiet w) = Raise EOFError
  /\ answered (self w') = answered (self w) + k
  /\ total_questions (self w') = total_questions (self w) - k - 1
  /\ pending (tty w') = [].
Proof.
  intros Hr Hlen. apply reachable_level_ok in Hr.
  pose proof (ask_short_input num_questions quiet w Hr Hlen) as H.
  cbv zeta in *. tauto.
Qed.

Lemma short_input_world_reachable : reachable short_input_world.
Proof.
  unfold short_input_world, demo_world, demo_session.
  destruct (init_ok (fun _ qs => qs) demo_notes None 10 40) as (s & E & _).
  rewrite E. exact (reach_init _ _ _ _ _ _ _ E).
Qed.

Lemma X10_witness :
  fst (ask 5 false short_input_world) = Raise EOFError
  /\ answered (self (snd (ask 5 false short_input_world)))
     = answered (self short_input_world)
       + Z.of_nat (List.length (pending (tty short_input_world)))
  /\ total_questions (self (snd (ask 5 false short_input_world)))
     = total_questions (self short_input_world)
       - Z.of_nat (List.length (pending (tty short_input_world))) - 1
  /\ pending (tty (snd (ask 5 false short_input_world))) = [].
Proof.
  apply (X10_ask_runs_out_of_input 5 false short_input_world).
  - exact short_input_world_reachable.
  - vm_compute. reflexivity.
Defined.

(** X11.  With [quiet] true [ask] still prints the prompt of [input],
    once for each line it tries to read, and nothing else: no header,
    no feedback, no summary. *)
Theorem X11_quiet_prints_the_prompts_only (num_questions : Z) (w : world) :
  let w' := snd (ask num_questions true w) in
  exists k : nat,
    printed (tty w') = printed (tty w) ++ repeat (lit "Your answer: ") k
    /\ (k <= Z.to_nat num_questions)%nat
    /\ (fst (ask num_questions true w) = Ok tt ->
        Z.of_nat k = answered (self w') - answered (self w))
    /\ (fst (ask num_questions true w) = Raise EOFError ->
        Z.of_nat k = answered (self w') - answered (self w) + 1).
Proof.
  cbv zeta.
  pose proof (ask_outcome num_questions true w)
    as (k & Hk & Hkl & Hsk & Hak & Hc & Hi & Hr).
  fold prompt.
  destruct (fst (ask num_questions true w)) as [[]|[]].
  - destruct Hr as (_ & Hpr & _). exists k.
    repeat split; auto; try discriminate; try lia.
  - destruct Hr as (_ & Hpr & _). exists k.
    repeat split; auto; try discriminate; try lia.
  - destruct Hr as (_ & Hpr & _). exists k.
    repeat split; auto; try discriminate; try lia.
  - destruct Hr as (_ & _ & Hpr & Hlt). exists (S k).
    repeat split; auto; try discriminate; try lia.
  - destruct Hr as (_ & Hpr & _). exists k.
    repeat split; auto; try discriminate; try lia.
Qed.

Section PopQuestion.

Lemma dict_get_set {V} (d : dict V) (k k' : Z) (v : V) :
  dict_get (dict_set d k v) k'
  = if k' =? k then Some v else dict_get d k'.
Proof.
  induction d as [|[k0 v0] r IH]; simpl.
  - rewrite (Z.eqb_sym k k'). reflexivity.
  - destruct (Z.eqb_spec k0 k) as [->|Hne]; simpl.
    + rewrite (Z.eqb_sym k k'). now destruct (k' =? k).
    + rewrite IH. destruct (Z.eqb_spec k0 k') as [->|Hne'];
        [|reflexivity].
      destruct (Z.eqb_spec k' k); [congruence | reflexivity].
Qed.

Lemma keys_dict_set_present {V} (d : dict V) (k : Z) (v v' : V) :
  dict_get d k = Some v -> keys (dict_set d k v') = keys d.
Proof. intros E. apply keys_dict_set. now apply dict_get_in_keys in E. Qed.

End PopQuestion.

(** X12.  [pop] on the bucket of the current level returns the last
    question of that bucket and leaves the bucket without it; the other
    buckets, the keys, the level, the counters and the console stay as
    they are.  On an empty bucket it raises [IndexError] and on a
    missing level [KeyError], and nothing changes. *)
Theorem X12_pop_takes_the_last_question (w : world) :
  let d := questions_by_level (self w) in
  let level := current_level (self w) in
  (forall qs q,
      dict_get d level = Some (qs ++ [q]) ->
      let w' := snd (pop_question w) in
      fst (pop_question w) = Ok q
      /\ (forall l,
             dict_get (questions_by_level (self w')) l
             = if l =? level then Some qs else dict_get d l)
      /\ keys (questions_by_level (self w')) = keys d
      /\ current_level (self w') = level
      /\ correct_count (self w') = correct_count (self w)
      /\ incorrect_count (self w') = incorrect_count (self w)
      /\ tty w' = tty w)
  /\ (dict_get d level = Some [] -> pop_question w = (Raise IndexError, w))
  /\ (dict_get d level = None -> pop_question w = (Raise KeyError, w)).
Proof.
  cbv zeta. split; [|split].
  - intros qs q E.
    cbv [pop_question bucket bind get_self ret raise put_self].
    rewrite E, rev_app_distr. cbn [rev app fst snd self tty].
    rewrite rev_involutive.
    cbn [questions_by_level set_buckets current_level correct_count
         incorrect_count].
    repeat split; auto.
    + intros l. apply dict_get_set.
    + now apply (keys_dict_set_present _ _ (qs ++ [q])).
  - intros E. cbv [pop_question bucket bind get_self ret raise put_self].
    rewrite E. reflexivity.
  - intros E. cbv [pop_question bucket bind get_self ret raise put_self].
    rewrite E. reflexivity.
Qed.

(** * Properties of [main] *)

Section Main.

Variable shuffle : Z -> list Question -> list Question.
Hypothesis shuffle_permutes : shuffles shuffle.

Variables (text : str) (tp : option str) (mn mx : Z).

Lemma main_unfold (num_questions : Z) (quiet : bool) (c : console) :
  main shuffle text num_questions tp mn mx quiet c
  = (fst (ask num_questions quiet
            (mkWorld (built_session shuffle text tp mn mx) c)),
     tty (snd (ask num_questions quiet
                 (mkWorld (built_session shuffle text tp mn mx) c)))).
Proof.
  unfold main. rewrite init_buckets. fold (built_session shuffle text tp mn mx).
  now destruct (ask num_questions quiet _).
Qed.

Lemma session_level_ok : level_ok (built_session shuffle text tp mn mx).
Proof. split; [reflexivity | simpl; lia]. Qed.

Lemma session_total :
  total_questions (built_session shuffle text tp mn mx)
  = Z.of_nat (List.length (questions_of tp (split_into_chunks text mn mx))).
Proof.
  unfold total_questions, built_session.
  cbn [questions_by_level map fold_right snd].
  rewrite !(Permutation_length (shuffle_permutes _ _)).
  pose proof (questions_at_lengths _
                (questions_of_difficulty tp (split_into_chunks text mn mx)))
    as H.
  lia.
Qed.

Lemma shuffle_nil (l : Z) : shuffle l [] = [].
Proof.
  apply Permutation_nil, Permutation_sym, shuffle_permutes.
Qed.

End Main.

(** X13.  On notes without a character that is not white space [main]
    asks nothing and reads nothing: it returns normally, and unless
    quiet it prints that no more questions are available (when
    [num_questions] is positive) and the summary with all counts 0 and
    no accuracy line. *)
Theorem X13_main_on_blank_notes
  (shuffle : Z -> list Question -> list Question) (text : str)
  (num_questions : Z) (tp : option str) (mn mx : Z) (quiet : bool)
  (c : console) :
  shuffles shuffle ->
  non_space text = [] ->
  main shuffle text num_questions tp mn mx quiet c
  = (Ok tt,
     mkConsole (pending c)
       (printed c
        ++ (if quiet then []
            else (if 0 <? num_questions
                  then [lit "No more questions available."] else [])
                 ++ [NL :: lit "Quiz complete!";
                     lit "Questions attempted: 0";
                     lit "Correct answers:   0";
                     lit "Incorrect answers: 0"]))).
Proof.
  intros Hsh Hblank. rewrite main_unfold.
  assert (built_session shuffle text tp mn mx
          = mkSession text tp mn mx [(0, []); (1, []); (2, [])] 1 0 0) as ->.
  { unfold built_session.
    rewrite (proj2 (chunks_nil_iff text mn mx) Hblank).
    cbn [questions_of flat_map questions_at filter map].
    now rewrite !(shuffle_nil shuffle Hsh). }
  set (w0 := mkWorld
               (mkSession text tp mn mx [(0, []); (1, []); (2, [])] 1 0 0) c).
  assert (forall q i,
             ask_body num_questions q i w0
             = (Ok Break,
                if q then w0
                else printing [lit "No more questions available."] w0))
    as Hbody by (intros [] i; reflexivity).
  unfold ask.
  destruct (Z.ltb_spec 0 num_questions) as [Hpos|Hneg].
  - destruct (Z.to_nat num_questions) as [|n] eqn:En; [lia|].
    cbn [for_range]. unfold bind. rewrite Hbody.
    destruct quiet; cbn [unless ret fst snd tty].
    + rewrite app_nil_r. subst w0. now destruct c.
    + rewrite print_summary_ok. unfold printing.
      cbn [fst snd self tty pending printed].
      rewrite <- app_assoc. reflexivity.
  - replace (Z.to_nat num_questions) with O by lia.
    cbn [for_range]. unfold bind, ret. destruct quiet; cbn [unless ret].
    + cbn [fst snd]. rewrite app_nil_r. subst w0. now destruct c.
    + rewrite print_summary_ok. reflexivity.
Qed.

Lemma X13_witness :
  main (fun _ qs => qs) (lit "   ") 5 None 50 300 false (mkConsole [] [])
  = (Ok tt,
     mkConsole []
       [lit "No more questions available.";
        NL :: lit "Quiz complete!";
        lit "Questions attempted: 0";
        lit "Correct answers:   0";
        lit "Incorrect answers: 0"]).
Proof.
  apply (X13_main_on_blank_notes (fun _ qs => qs) (lit "   ") 5 None 50 300
           false (mkConsole [] [])).
  - intros l qs. apply Permutation_refl.
  - reflexivity.
Defined.

(** X14.  When the shuffle permutes, [main] serves
    [min(max(0, num_questions), n)] questions, [n] the number of
    questions made from the chunks of the notes that pass the topic
    filter, if the input has that many lines: it returns normally and
    has read exactly that many lines, and with [quiet] it has printed
    that many prompts and nothing else.  With fewer lines it ends on
    [EOFError] after it read them all. *)
Theorem X14_main_serves_the_generated_questions
  (shuffle : Z -> list Question -> list Question) (text : str)
  (num_questions : Z) (tp : option str) (mn mx : Z) (quiet : bool)
  (c : console) :
  shuffles shuffle ->
  let available :=
    Z.of_nat (List.length (questions_of tp (split_into_chunks text mn mx))) in
  let k := Z.min (Z.max 0 num_questions) available in
  let r := main shuffle text num_questions tp mn mx quiet c in
  (k <= Z.of_nat (List.length (pending c)) ->
   fst r = Ok tt
   /\ pending (snd r) = skipn (Z.to_nat k) (pending c)
   /\ (quiet = true ->
       printed (snd r)
       = printed c ++ repeat (lit "Your answer: ") (Z.to_nat k)))
  /\ (Z.of_nat (List.length (pending c)) < k ->
      fst r = Raise EOFError
      /\ pending (snd r) = []
      /\ (quiet = true ->
          printed (snd r)
          = printed c
            ++ repeat (lit "Your answer: ") (S (List.length (pending c))))).
Proof.
  intros Hsh. cbv zeta. rewrite main_unfold. cbn [fst snd].
  pose proof (session_level_ok shuffle text tp mn mx) as Hok.
  pose proof (session_total shuffle Hsh text tp mn mx) as Htot.
  fold prompt. split; intros Hlen.
  - pose proof (ask_enough_input num_questions quiet
                  (mkWorld (built_session shuffle text tp mn mx) c) Hok)
      as H.
    unfold to_serve in H. cbn [self tty] in H. rewrite Htot in H.
    specialize (H Hlen). cbv zeta in H. tauto.
  - pose proof (ask_short_input num_questions quiet
                  (mkWorld (built_session shuffle text tp mn mx) c) Hok)
      as H.
    unfold to_serve in H. cbn [self tty] in H. rewrite Htot in H.
    specialize (H Hlen). cbv zeta in H. tauto.
Qed.

Lemma X14_witness :
  fst (main (fun _ qs => qs) demo_notes 5 None 10 40 true
         (mkConsole [lit "paris"; lit "no idea"; lit "unused"] []))
  = Ok tt
  /\ pending (snd (main (fun _ qs => qs) demo_notes 5 None 10 40 true
                     (mkConsole [lit "paris"; lit "no idea"; lit "unused"] [])))
     = [lit "unused"]
  /\ (true = true ->
      printed (snd (main (fun _ qs => qs) demo_notes 5 None 10 40 true
                      (mkConsole [lit "paris"; lit "no idea"; lit "unused"]
                         [])))
      = [lit "Your answer: "; lit "Your answer: "]).
Proof.
  apply (proj1 (X14_main_serves_the_generated_questions (fun _ qs => qs)
                  demo_notes 5 None 10 40 true
                  (mkConsole [lit "paris"; lit "no idea"; lit "unused"] [])
                  (fun l qs => Permutation_refl qs))).
  vm_compute. discriminate.
Defined.

(** * Further properties of grading *)

Section Normalization.

Lemma lower_char_idem (c : ascii) : lower_char (lower_char c) = lower_char c.
Proof. destruct c as [[] [] [] [] [] [] [] []]; reflexivity. Qed.

Lemma isspace_lower_char (c : ascii) : isspace (lower_char c) = isspace c.
Proof. destruct c as [[] [] [] [] [] [] [] []]; reflexivity. Qed.

Lemma lower_idem (s : str) : lower (lower s) = lower s.
Proof.
  unfold lower. rewrite map_map. apply map_ext. apply lower_char_idem.
Qed.

Lemma lstrip_lower (s : str) : lstrip (lower s) = lower (lstrip s).
Proof.
  induction s as [|c r IH]; simpl; [reflexivity|].
  rewrite isspace_lower_char. now destruct (isspace c).
Qed.

Lemma strip_lower (s : str) : strip (lower s) = lower (strip s).
Proof.
  assert (forall x, rev (lower x) = lower (rev x)) as Hrev
      by (intros x; unfold lower; now rewrite map_rev).
  unfold strip, rstrip.
  now rewrite lstrip_lower, Hrev, lstrip_lower, Hrev.
Qed.

Lemma lstrip_pad (t s : str) :
  Forall (fun c => isspace c = true) t -> lstrip (t ++ s) = lstrip s.
Proof.
  induction 1 as [|c r Hc _ IH]; simpl; [reflexivity|]. now rewrite Hc.
Qed.

Lemma lstrip_pad_right (s t : str) :
  Forall (fun c => isspace c = true) t ->
  rstrip (lstrip (s ++ t)) = rstrip (lstrip s).
Proof.
  intros Ht. destruct (lstrip_split s) as (u & Hu & Hall).
  destruct (lstrip s) as [|c r] eqn:El.
  - rewrite app_nil_r in Hu. subst u.
    rewrite (lstrip_pad s t Hall).
    assert (lstrip t = []) as ->.
    { clear -Ht. induction Ht as [|c r Hc _ IH]; simpl; [reflexivity|].
      now rewrite Hc. }
    reflexivity.
  - assert (lstrip (s ++ t) = (c :: r) ++ t) as ->.
    { rewrite Hu at 1. rewrite <- app_assoc, (lstrip_pad u _ Hall).
      pose proof (lstrip_no_lead s) as Hn. rewrite El in Hn.
      simpl in Hn |- *. now rewrite Hn. }
    unfold rstrip. rewrite rev_app_distr.
    rewrite (lstrip_pad (rev t) _ (Forall_rev Ht)). reflexivity.
Qed.

(** White space around a string does not change its trimmed form. *)
Lemma strip_pad (pre s post : str) :
  Forall (fun c => isspace c = true) pre ->
  Forall (fun c => isspace c = true) post ->
  strip (pre ++ s ++ post) = strip s.
Proof.
  intros Hpre Hpost. unfold strip.
  rewrite (lstrip_pad pre _ Hpre). now apply lstrip_pad_right.
Qed.

End Normalization.

(** X15.  Grading does not depend on the case of the letters or on
    white space around the two strings: putting white space before or
    after the user's answer or the correct answer, or lowercasing
    either, does not change the verdict. *)
Theorem X15_grading_ignores_case_and_padding
  (user correct pre post pre' post' : str) :
  Forall (fun c => isspace c = true) pre ->
  Forall (fun c => isspace c = true) post ->
  Forall (fun c => isspace c = true) pre' ->
  Forall (fun c => isspace c = true) post' ->
  _check_answer (pre ++ user ++ post) (pre' ++ correct ++ post')
  = _check_answer user correct
  /\ _check_answer (lower user) correct = _check_answer user correct
  /\ _check_answer user (lower correct) = _check_answer user correct.
Proof.
  intros H1 H2 H3 H4. unfold _check_answer.
  rewrite (strip_pad pre user post H1 H2), (strip_pad pre' correct post' H3 H4).
  rewrite !strip_lower, !lower_idem. repeat split.
Qed.

Lemma X15_witness :
  _check_answer (lit "  " ++ lit "PARIS" ++ [NL]) ([] ++ lit "Paris" ++ [])
  = _check_answer (lit "PARIS") (lit "Paris")
  /\ _check_answer (lower (lit "PARIS")) (lit "Paris")
     = _check_answer (lit "PARIS") (lit "Paris")
  /\ _check_answer (lit "PARIS") (lower (lit "Paris"))
     = _check_answer (lit "PARIS") (lit "Paris").
Proof.
  apply (X15_grading_ignores_case_and_padding (lit "PARIS") (lit "Paris")
           (lit "  ") [NL] [] []);
    repeat constructor.
Defined.
